(** * argen: the generated argument parsers of [examples/]

    A shallow embedding of two of the repository's example programs:

    - [examples/simple_gen.c], whose [populate_args] walks [argv] by hand;
    - [examples/example.c], whose [parse_args] drives the C library's
      [getopt_long] and then distributes the positional arguments.

    C objects written through pointers are modelled as cells of type
    [option _]: [None] is an object that has never been assigned (its value
    is indeterminate), [Some x] an object holding [x].  [int] is [Z] with the
    32-bit wrap-around written out. *)

From Stdlib Require Import ZArith List Bool Ascii String Lia.
Import ListNotations.

Local Open Scope string_scope.
Local Open Scope list_scope.
Local Open Scope Z_scope.

(** ** The C library functions the examples call *)

Module Libc.

(** Conversion to [int] (two's complement, 32 bits). *)
Definition to_int (z : Z) : Z := (z + 2 ^ 31) mod 2 ^ 32 - 2 ^ 31.

Definition LONG_MAX : Z := 2 ^ 63 - 1.
Definition LONG_MIN : Z := - 2 ^ 63.

Definition isspace (c : ascii) : bool :=
  let n := nat_of_ascii c in
  (Nat.eqb n 32 || (Nat.leb 9 n && Nat.leb n 13))%bool.

Definition digit_val (c : ascii) : option Z :=
  let n := nat_of_ascii c in
  if (Nat.leb 48 n && Nat.leb n 57)%bool then Some (Z.of_nat n - 48) else None.

Fixpoint skip_spaces (s : string) : string :=
  match s with
  | String c s' => if isspace c then skip_spaces s' else s
  | EmptyString => s
  end.

(** The value of the longest prefix of decimal digits, [acc] being the value
    of the digits already read. *)
Fixpoint digits (acc : Z) (s : string) : Z :=
  match s with
  | String c s' =>
      match digit_val c with
      | Some d => digits (acc * 10 + d) s'
      | None => acc
      end
  | EmptyString => acc
  end.

(** [strtol (s, NULL, 10)]: white space, an optional sign, decimal digits;
    no digit gives 0, a value out of range is clamped. *)
Definition strtol (s : string) : Z :=
  let clamp z := Z.max LONG_MIN (Z.min LONG_MAX z) in
  match skip_spaces s with
  | String "-" s' => clamp (- digits 0 s')
  | String "+" s' => clamp (digits 0 s')
  | s' => clamp (digits 0 s')
  end.

(** [atoi], which the GNU C library defines as [(int) strtol (s, NULL, 10)]. *)
Definition atoi (s : string) : Z := to_int (strtol s).

(** [strcmp (a, b) == 0]. *)
Definition streq (a b : string) : bool := String.eqb a b.

End Libc.

(** ** examples/simple_gen.c *)

Module SimpleGen.
Import Libc.

(** The three objects [populate_args] writes through its pointers. *)
Record args := mk_args {
  int_arg : option Z;
  char_arg : option ascii;
  np_arg : option Z
}.

(** [main] declares the three variables without an initialiser. *)
Definition uninit : args := mk_args None None None.

(** How a run of [populate_args] ends: it returns, or it dereferences the
    null pointer stored at [argv[idx]]. *)
Inductive result :=
| Finished (a : args)
| NullDeref (idx : nat).

(** A run: the indices of [argv] it read, in order, and how it ended. *)
Record run := mk_run { reads : list nat; res : result }.

(** [argv[i]]: the array holds [argc] strings followed by a null pointer,
    here [None]. *)
Definition argv_at (argv : list string) (i : nat) : option string :=
  nth_error argv i.

(** The first character of a C string, the terminating NUL for [""]. *)
Definition first_char (s : string) : ascii :=
  match s with
  | String c _ => c
  | EmptyString => zero
  end.

(** The [for] loop of [populate_args], entered with counter [i] and [n]
    iterations to go ([n = argc - i]); [log] holds the reads so far, latest
    first. *)
Fixpoint for_loop (n : nat) (i : nat) (argv : list string) (a : args)
    (log : list nat) : run :=
  match n with
  | O => mk_run (rev log) (Finished a)
  | S n' =>
      match argv_at argv i with
      | None => mk_run (rev (i :: log)) (NullDeref i)
      | Some s =>
          if streq s "--int_arg" then
            match argv_at argv (S i) with
            | None => mk_run (rev (S i :: i :: log)) (NullDeref (S i))
            | Some v =>
                for_loop n' (S i) argv
                  (mk_args (Some (atoi v)) (char_arg a) (np_arg a))
                  (S i :: i :: log)
            end
          else if streq s "--char_arg" then
            match argv_at argv (S i) with
            | None => mk_run (rev (S i :: i :: log)) (NullDeref (S i))
            | Some v =>
                for_loop n' (S i) argv
                  (mk_args (int_arg a) (Some (first_char v)) (np_arg a))
                  (S i :: i :: log)
            end
          else
            for_loop n' (S i) argv
              (mk_args (int_arg a) (char_arg a) (Some (atoi s)))
              (i :: log)
      end
  end.

Definition argc (argv : list string) : nat := List.length argv.

(** The two option names [populate_args] compares with. *)
Definition option_name (s : string) : bool :=
  (streq s "--int_arg" || streq s "--char_arg")%bool.

(** [populate_args (&int_arg, &char_arg, &np_arg, argc, argv)] with
    [argc = argc argv]. *)
Definition populate_args (a : args) (argv : list string) : run :=
  for_loop (argc argv - 1) 1 argv a [].

End SimpleGen.

(** ** getopt_long

    [examples/example.c] leaves the recognition of options to the C library.
    The model below follows the GNU C library's [getopt_long] as getopt(3)
    documents it, for the way the examples call it: an option string without
    a leading [+], [-] or [:] and without [W;], a table of long options whose
    [flag] members are all null, [longind] null, and [POSIXLY_CORRECT] not
    set, so that the library permutes [argv] and brings the non-options to
    its end in their original order.

    The library keeps its position in [argv] in [optind] and two more
    indices.  Here the same position is held as the element lists themselves:
    [nonopts] is the block of non-options passed over so far (the elements
    of [argv] between the library's [first_nonopt] and [last_nonopt]), [rest]
    the elements not looked at yet ([argv[optind]] onwards) and [nextchar]
    what is left of a cluster of short options that is being read.  When the
    scan is over the elements from [argv[optind]] onwards are
    [nonopts ++ rest]. *)

Module Getopt.
Import Libc.

Inductive has_arg_t := no_argument | required_argument | optional_argument.

(** [struct option], its [flag] member being null throughout. *)
Record option_t := mk_option {
  name : string;
  has_arg : has_arg_t;
  val : Z
}.

Record getopt_data := mk_data {
  nonopts : list string;
  rest : list string;
  nextchar : string
}.

(** What one call hands back: the return value, [optarg] ([None] for the
    null pointer) and the library's state afterwards. *)
Record getopt_ret := mk_ret {
  ch : Z;
  optarg : option string;
  data : getopt_data
}.

(** The code of [?], returned for every error. *)
Definition QUESTION : Z := 63.

Definition code (c : ascii) : Z := Z.of_nat (nat_of_ascii c).

(** [s[n]] for a C string: the terminating NUL at its end. *)
Definition char_at (s : string) (n : nat) : ascii :=
  match String.get n s with
  | Some c => c
  | None => zero
  end.

(** [NONOPTION_P]: the element does not start with [-], or is [-] alone. *)
Definition nonoption (s : string) : bool :=
  (negb (Ascii.eqb (char_at s 0) "-") || Ascii.eqb (char_at s 1) zero)%bool.

(** The non-options at the head of a list of elements, and what follows. *)
Fixpoint skip_nonoptions (l : list string) : list string * list string :=
  match l with
  | s :: l' =>
      if nonoption s then
        let (skipped, l'') := skip_nonoptions l' in (s :: skipped, l'')
      else ([], l)
  | [] => ([], [])
  end.

(** [strchr (optstring, c)] for [c] other than NUL: the string from the first
    [c] onwards. *)
Fixpoint strchr (s : string) (c : ascii) : option string :=
  match s with
  | String c' s' => if Ascii.eqb c' c then Some s else strchr s' c
  | EmptyString => None
  end.

(** The name of a long option and, if the element holds [=], what follows
    the first one. *)
Fixpoint split_eq (s : string) : string * option string :=
  match s with
  | String c s' =>
      if Ascii.eqb c "=" then (EmptyString, Some s')
      else let (n, v) := split_eq s' in (String c n, v)
  | EmptyString => (EmptyString, None)
  end.

Definition has_arg_eqb (a b : has_arg_t) : bool :=
  match a, b with
  | no_argument, no_argument => true
  | required_argument, required_argument => true
  | optional_argument, optional_argument => true
  | _, _ => false
  end.

Definition same_option (p q : option_t) : bool :=
  (has_arg_eqb (has_arg p) (has_arg q) && Z.eqb (val p) (val q))%bool.

(** How a name is looked up in the table: an exact match wins; otherwise the
    name must abbreviate entries that all stand for one option. *)
Inductive lookup_t :=
| Found (p : option_t)
| Ambiguous
| Unrecognized.

Definition lookup (longopts : list option_t) (nm : string) : lookup_t :=
  match find (fun p => streq (name p) nm) longopts with
  | Some p => Found p
  | None =>
      match filter (fun p => String.prefix nm (name p)) longopts with
      | [] => Unrecognized
      | p :: ps => if forallb (same_option p) ps then Found p else Ambiguous
      end
  end.

(** [process_long_option]: [body] is the element after its [--], [tl] the
    elements after it. *)
Definition process_long_option (longopts : list option_t)
    (nonopts : list string) (body : string) (tl : list string) : getopt_ret :=
  let (nm, eqv) := split_eq body in
  match lookup longopts nm with
  | Ambiguous | Unrecognized =>
      mk_ret QUESTION None (mk_data nonopts tl EmptyString)
  | Found p =>
      match eqv with
      | Some v =>
          match has_arg p with
          | no_argument => mk_ret QUESTION None (mk_data nonopts tl EmptyString)
          | _ => mk_ret (val p) (Some v) (mk_data nonopts tl EmptyString)
          end
      | None =>
          match has_arg p with
          | required_argument =>
              match tl with
              | v :: tl' => mk_ret (val p) (Some v) (mk_data nonopts tl' EmptyString)
              | [] => mk_ret QUESTION None (mk_data nonopts tl EmptyString)
              end
          | _ => mk_ret (val p) None (mk_data nonopts tl EmptyString)
          end
      end
  end.

(** The next character [c] of a cluster of short options, [cs] being the
    characters after it in the same element. *)
Definition short_option (optstring : string) (nonopts : list string)
    (c : ascii) (cs : string) (tl : list string) : getopt_ret :=
  match strchr optstring c with
  | None => mk_ret QUESTION None (mk_data nonopts tl cs)
  | Some temp =>
      if (Ascii.eqb c ":" || Ascii.eqb c ";")%bool then
        mk_ret QUESTION None (mk_data nonopts tl cs)
      else if Ascii.eqb (char_at temp 1) ":" then
        if Ascii.eqb (char_at temp 2) ":" then
          (* an argument that may be left out *)
          match cs with
          | EmptyString => mk_ret (code c) None (mk_data nonopts tl EmptyString)
          | _ => mk_ret (code c) (Some cs) (mk_data nonopts tl EmptyString)
          end
        else
          (* an argument that is required *)
          match cs with
          | EmptyString =>
              match tl with
              | v :: tl' =>
                  mk_ret (code c) (Some v) (mk_data nonopts tl' EmptyString)
              | [] => mk_ret QUESTION None (mk_data nonopts tl EmptyString)
              end
          | _ => mk_ret (code c) (Some cs) (mk_data nonopts tl EmptyString)
          end
      else mk_ret (code c) None (mk_data nonopts tl cs)
  end.

(** One call of [getopt_long (argc, argv, optstring, longopts, NULL)].  With
    no cluster under way it passes over the non-options in front, stops at
    the end of [argv] or at [--], and otherwise reads a long option or the
    first character of a cluster.  (The last case cannot arise: the element
    that ends the non-options has two characters or more.) *)
Definition getopt_long (optstring : string) (longopts : list option_t)
    (d : getopt_data) : getopt_ret :=
  match nextchar d with
  | String c cs => short_option optstring (nonopts d) c cs (rest d)
  | EmptyString =>
      let (skipped, l) := skip_nonoptions (rest d) in
      let nonopts' := nonopts d ++ skipped in
      match l with
      | [] => mk_ret (-1) None (mk_data nonopts' [] EmptyString)
      | elt :: tl =>
          if streq elt "--" then
            mk_ret (-1) None (mk_data (nonopts' ++ tl) [] EmptyString)
          else
            match elt with
            | String _ (String c cs) =>
                if Ascii.eqb c "-" then
                  process_long_option longopts nonopts' cs tl
                else short_option optstring nonopts' c cs tl
            | _ => mk_ret (-1) None (mk_data nonopts' l EmptyString)
            end
      end
  end.

(** The library's state before the first call, for the arguments
    [argv[1]], ..., [argv[argc-1]]. *)
Definition initial (args : list string) : getopt_data :=
  mk_data [] args EmptyString.

(** The elements from [argv[optind]] onwards. *)
Definition remaining (d : getopt_data) : list string := nonopts d ++ rest d.

(** [subseq l1 l2]: [l1] is [l2] with some elements left out, the others in
    the same order. *)
Inductive subseq {A : Type} : list A -> list A -> Prop :=
| subseq_nil : subseq [] []
| subseq_skip x l1 l2 : subseq l1 l2 -> subseq l1 (x :: l2)
| subseq_keep x l1 l2 : subseq l1 l2 -> subseq (x :: l1) (x :: l2).

(** A bound on the number of calls that can still return an option: a call
    that does so uses up a character of the cluster or an element. *)
Definition weight (l : list string) : nat :=
  list_sum (map (fun s => S (String.length s)) l).

Definition measure (d : getopt_data) : nat :=
  (String.length (nextchar d) + weight (rest d))%nat.

(** [getopt_long] with the environment it reads.  [posixly_correct] tells
    whether [POSIXLY_CORRECT] is set.  If it is not, the library permutes as
    [getopt_long] above does.  If it is, the library neither passes over
    non-options nor reorders anything: the first non-option ends the scan,
    and it stays where it is, first of the elements from [argv[optind]]
    onwards. *)
Definition getopt_long_env (posixly_correct : bool) (optstring : string)
    (longopts : list option_t) (d : getopt_data) : getopt_ret :=
  match nextchar d with
  | String c cs => short_option optstring (nonopts d) c cs (rest d)
  | EmptyString =>
      let (skipped, l) :=
        if posixly_correct then ([], rest d) else skip_nonoptions (rest d) in
      let nonopts' := nonopts d ++ skipped in
      match l with
      | [] => mk_ret (-1) None (mk_data nonopts' [] EmptyString)
      | elt :: tl =>
          if streq elt "--" then
            mk_ret (-1) None (mk_data (nonopts' ++ tl) [] EmptyString)
          else if nonoption elt then
            mk_ret (-1) None (mk_data nonopts' l EmptyString)
          else
            match elt with
            | String _ (String c cs) =>
                if Ascii.eqb c "-" then
                  process_long_option longopts nonopts' cs tl
                else short_option optstring nonopts' c cs tl
            | _ => mk_ret (-1) None (mk_data nonopts' l EmptyString)
            end
      end
  end.

End Getopt.

(** ** examples/example.c *)

Module Example.
Import Libc Getopt.

(** A [char *]: [None] is the null pointer. *)
Definition char_p := option string.

(** The objects [parse_args] writes through its pointer parameters.  [words]
    points into [argv]; it is modelled by the elements it points at. *)
Record vars := mk_vars {
  block_size : option Z;
  fave_number : option Z;
  quiet : option Z;
  username : option char_p;
  out_file : option char_p;
  in_file : option char_p;
  words : option (list string);
  words__size : option Z
}.

(** [main] declares all eight variables without an initialiser. *)
Definition uninit : vars :=
  mk_vars None None None None None None None None.

Definition set_block_size (x : Z) (v : vars) : vars :=
  mk_vars (Some x) (fave_number v) (quiet v) (username v) (out_file v)
    (in_file v) (words v) (words__size v).
Definition set_fave_number (x : Z) (v : vars) : vars :=
  mk_vars (block_size v) (Some x) (quiet v) (username v) (out_file v)
    (in_file v) (words v) (words__size v).
Definition set_quiet (x : Z) (v : vars) : vars :=
  mk_vars (block_size v) (fave_number v) (Some x) (username v) (out_file v)
    (in_file v) (words v) (words__size v).
Definition set_username (x : char_p) (v : vars) : vars :=
  mk_vars (block_size v) (fave_number v) (quiet v) (Some x) (out_file v)
    (in_file v) (words v) (words__size v).
Definition set_out_file (x : char_p) (v : vars) : vars :=
  mk_vars (block_size v) (fave_number v) (quiet v) (username v) (Some x)
    (in_file v) (words v) (words__size v).
Definition set_in_file (x : char_p) (v : vars) : vars :=
  mk_vars (block_size v) (fave_number v) (quiet v) (username v) (out_file v)
    (Some x) (words v) (words__size v).
Definition set_words (x : list string) (n : Z) (v : vars) : vars :=
  mk_vars (block_size v) (fave_number v) (quiet v) (username v) (out_file v)
    (in_file v) (Some x) (Some n).

(** The locals [block_size__isset], [fave_number__isset] and
    [username__isset]. *)
Record issets := mk_issets {
  block_size__isset : bool;
  fave_number__isset : bool;
  username__isset : bool
}.

Definition block_size__default : Z := 12.
Definition fave_number__default : Z := to_int 0xDEADBEEF.
Definition username__default : string := "John Smith".

Definition optstring : string := "b:qh".

Definition longopts : list option_t :=
  [ mk_option "block-size" required_argument 98;
    mk_option "fav-number" required_argument 33;
    mk_option "quiet" no_argument 113;
    mk_option "name" required_argument 68;
    mk_option "help" no_argument (code "h") ].

(** How [parse_args] ends: it returns to [main], it prints the usage for
    [progname] and calls [exit (status)], or it hands a null pointer to
    [atoi]. *)
Inductive outcome :=
| Returned (v : vars)
| UsageExit (progname : string) (status : Z)
| Fault.

(** One pass through the [switch]. *)
Inductive switched :=
| Break (v : vars) (s : issets)
| Usage
| NullArg.

Definition switch (c : Z) (arg : char_p) (v : vars) (s : issets) : switched :=
  if c =? 98 then
    match arg with
    | Some a =>
        Break (set_block_size (atoi a) v)
          (mk_issets true (fave_number__isset s) (username__isset s))
    | None => NullArg
    end
  else if c =? 33 then
    match arg with
    | Some a =>
        Break (set_fave_number (atoi a) v)
          (mk_issets (block_size__isset s) true (username__isset s))
    | None => NullArg
    end
  else if c =? 113 then Break (set_quiet 1 v) s
  else if c =? 68 then
    Break (set_username arg v)
      (mk_issets (block_size__isset s) (fave_number__isset s) true)
  else if c =? 0 then Break v s
  else Usage.

(** The call [getopt_long (argc, argv, "b:qh", longopts, NULL)] of line 44. *)
Definition next (d : getopt_data) : getopt_ret :=
  getopt_long optstring longopts d.

(** How the [while] loop over [getopt_long] ends. *)
Inductive scanned :=
| ScanDone (d : getopt_data) (v : vars) (s : issets)
| ScanUsage
| ScanFault.

(** The [while] loop, for at most [fuel] calls of [getopt_long]. *)
Fixpoint option_loop (fuel : nat) (d : getopt_data) (v : vars) (s : issets)
    : option scanned :=
  match fuel with
  | O => None
  | S fuel' =>
      let r := next d in
      if ch r =? -1 then Some (ScanDone (data r) v s)
      else
        match switch (ch r) (optarg r) v s with
        | Break v' s' => option_loop fuel' (data r) v' s'
        | Usage => Some ScanUsage
        | NullArg => Some ScanFault
        end
  end.

(** Lines 69 to 77: the defaults of the options that were not set. *)
Definition defaults (v : vars) (s : issets) : vars :=
  let v1 := if block_size__isset s then v
            else set_block_size block_size__default v in
  let v2 := if fave_number__isset s then v1
            else set_fave_number fave_number__default v1 in
  if username__isset s then v2
  else set_username (Some username__default) v2.

(** [argv[0]] for a pointer [argv] into the argument vector, of which the
    elements [l] are left: the null pointer that ends the vector if there
    is none. *)
Definition argv_0 (l : list string) : char_p := hd_error l.

(** Lines 79 to 97.  [l] holds the elements from [argv[optind]] onwards,
    [argc - optind] of them. *)
Definition positionals (progname : string) (l : list string) (v : vars)
    : outcome :=
  let argc := Z.of_nat (List.length l) in
  if argc <? 1 then UsageExit progname 1
  else
    (* argv += optind; argc -= optind; *)
    let argv := l in
    (* *out_file = argv[0]; argv++; argc -= 1; *)
    let v := set_out_file (argv_0 argv) v in
    let argv := tl argv in
    let argc := argc - 1 in
    (* if (argc > 0) { *in_file = argv[0]; argv++; argc--; } *)
    let '(v, argv, argc) :=
      if argc >? 0 then (set_in_file (argv_0 argv) v, tl argv, argc - 1)
      else (v, argv, argc) in
    (* if (argc > 0) { *words = argv; *words__size = argc; } *)
    if argc >? 0 then Returned (set_words argv argc v) else Returned v.

(** [parse_args (argc, argv, ...)] for [argv = progname :: args], the eight
    objects pointed at holding [v] on entry.  [None] only if the loop were to
    need more calls than the bound allows, which [parse_args_total] excludes. *)
Definition parse_args (progname : string) (args : list string) (v : vars)
    : option outcome :=
  match option_loop (S (measure (initial args))) (initial args) v
          (mk_issets false false false) with
  | None => None
  | Some ScanUsage => Some (UsageExit progname 1)
  | Some ScanFault => Some Fault
  | Some (ScanDone d v' s) =>
      Some (positionals progname (remaining d) (defaults v' s))
  end.

(** [main]: [parse_args] on uninitialised variables. *)
Definition main (progname : string) (args : list string) : option outcome :=
  parse_args progname args uninit.

(** The calls of [getopt_long] that return an option, up to the call that
    returns [-1], whatever the caller does in between. *)
Fixpoint getopt_calls (fuel : nat) (d : getopt_data) : list getopt_ret :=
  match fuel with
  | O => []
  | S fuel' =>
      let r := next d in
      if ch r =? -1 then [] else r :: getopt_calls fuel' (data r)
  end.

Definition codes (fuel : nat) (d : getopt_data) : list Z :=
  map ch (getopt_calls fuel d).

(** The return values of [getopt_long] over the whole of [args]. *)
Definition option_codes (args : list string) : list Z :=
  codes (S (measure (initial args))) (initial args).

(** The three long options that take a value. *)
Definition value_options : list string := ["block-size"; "fav-number"; "name"].

(** A finished scan with [fave_number] set to [y] beforehand. *)
Definition with_fave (y : Z) (x : scanned) : scanned :=
  match x with
  | ScanDone d v s =>
      ScanDone d (set_fave_number y v)
        (mk_issets (block_size__isset s) true (username__isset s))
  | _ => x
  end.

(** Whether [getopt_long] has returned [c]. *)
Definition has_code (c : Z) (l : list Z) : bool := existsb (fun x => x =? c) l.

(** What a scan in which [getopt_long] returned the codes [l] has changed
    from [v], [s] to [v'], [s'], and what it has left alone. *)
Record scan_effect (l : list Z) (v : vars) (s : issets) (v' : vars)
    (s' : issets) : Prop := mk_scan_effect {
  eff_block_size__isset :
    block_size__isset s' = (block_size__isset s || has_code 98 l)%bool;
  eff_fave_number__isset :
    fave_number__isset s' = (fave_number__isset s || has_code 33 l)%bool;
  eff_username__isset :
    username__isset s' = (username__isset s || has_code 68 l)%bool;
  eff_block_size :
    has_code 98 l = false -> block_size v' = block_size v;
  eff_fave_number :
    has_code 33 l = false -> fave_number v' = fave_number v;
  eff_username :
    has_code 68 l = false -> username v' = username v;
  eff_quiet :
    quiet v' = if has_code 113 l then Some 1 else quiet v;
  eff_out_file : out_file v' = out_file v;
  eff_in_file : in_file v' = in_file v;
  eff_words : words v' = words v;
  eff_words__size : words__size v' = words__size v
}.

(** Where a flag is set a value has been stored, for [username] a pointer
    that is not null. *)
Definition isset_ok (v : vars) (s : issets) : Prop :=
  (block_size__isset s = true -> exists b, block_size v = Some b)
  /\ (fave_number__isset s = true -> exists f, fave_number v = Some f)
  /\ (username__isset s = true -> exists u, username v = Some (Some u)).

(** [parse_args] with the environment: the loop and the stages of
    [parse_args] over [getopt_long_env]. *)
Definition next_env (posixly_correct : bool) (d : getopt_data) : getopt_ret :=
  getopt_long_env posixly_correct optstring longopts d.

Fixpoint option_loop_env (posixly_correct : bool) (fuel : nat)
    (d : getopt_data) (v : vars) (s : issets) : option scanned :=
  match fuel with
  | O => None
  | S fuel' =>
      let r := next_env posixly_correct d in
      if ch r =? -1 then Some (ScanDone (data r) v s)
      else
        match switch (ch r) (optarg r) v s with
        | Break v' s' => option_loop_env posixly_correct fuel' (data r) v' s'
        | Usage => Some ScanUsage
        | NullArg => Some ScanFault
        end
  end.

Definition parse_args_env (posixly_correct : bool) (progname : string)
    (args : list string) (v : vars) : option outcome :=
  match option_loop_env posixly_correct (S (measure (initial args)))
          (initial args) v (mk_issets false false false) with
  | None => None
  | Some ScanUsage => Some (UsageExit progname 1)
  | Some ScanFault => Some Fault
  | Some (ScanDone d v' s) =>
      Some (positionals progname (remaining d) (defaults v' s))
  end.

(** The option forms that make up one complete option, [x] being the value
    of those that take one. *)
Definition option_blocks (x : string) : list (list string) :=
  [ ["-q"]; ["--quiet"]; ["-b"; x]; ["--block-size"; x];
    ["--fav-number"; x]; ["--name"; x] ].

(** A complete option, whatever its value. *)
Definition option_block (b : list string) : Prop :=
  exists x, In b (option_blocks x).

End Example.

(** ** examples/example_cli.c

    The same eight variables as in [example.c], written by a [parse_args]
    whose table gives [--fav-number] the code 166 and [--name] the code 34
    and whose defaults are written out where they are stored.  Lines 73 to 91
    are lines 79 to 97 of [example.c] word for word, hence [positionals]. *)

Module ExampleCli.
Import Libc Getopt Example.

Definition optstring : string := "b:qh".

Definition longopts : list option_t :=
  [ mk_option "block-size" required_argument 98;
    mk_option "fav-number" required_argument 166;
    mk_option "quiet" no_argument 113;
    mk_option "name" required_argument 34;
    mk_option "help" no_argument (code "h") ].

Definition switch (c : Z) (arg : char_p) (v : vars) (s : issets) : switched :=
  if c =? 98 then
    match arg with
    | Some a =>
        Break (set_block_size (atoi a) v)
          (mk_issets true (fave_number__isset s) (username__isset s))
    | None => NullArg
    end
  else if c =? 166 then
    match arg with
    | Some a =>
        Break (set_fave_number (atoi a) v)
          (mk_issets (block_size__isset s) true (username__isset s))
    | None => NullArg
    end
  else if c =? 113 then Break (set_quiet 1 v) s
  else if c =? 34 then
    Break (set_username arg v)
      (mk_issets (block_size__isset s) (fave_number__isset s) true)
  else if c =? 0 then Break v s
  else Usage.

(** The call [getopt_long (argc, argv, "b:qh", longopts, NULL)] of line 38. *)
Definition next (d : getopt_data) : getopt_ret :=
  getopt_long optstring longopts d.

(** The [while] loop, for at most [fuel] calls of [getopt_long]. *)
Fixpoint option_loop (fuel : nat) (d : getopt_data) (v : vars) (s : issets)
    : option scanned :=
  match fuel with
  | O => None
  | S fuel' =>
      let r := next d in
      if ch r =? -1 then Some (ScanDone (data r) v s)
      else
        match switch (ch r) (optarg r) v s with
        | Break v' s' => option_loop fuel' (data r) v' s'
        | Usage => Some ScanUsage
        | NullArg => Some ScanFault
        end
  end.

(** Lines 63 to 71. *)
Definition defaults (v : vars) (s : issets) : vars :=
  let v1 := if block_size__isset s then v else set_block_size 12 v in
  let v2 := if fave_number__isset s then v1
            else set_fave_number (to_int 0xDEADBEEF) v1 in
  if username__isset s then v2 else set_username (Some "John Smith") v2.

Definition parse_args (progname : string) (args : list string) (v : vars)
    : option outcome :=
  match option_loop (S (measure (initial args))) (initial args) v
          (mk_issets false false false) with
  | None => None
  | Some ScanUsage => Some (UsageExit progname 1)
  | Some ScanFault => Some Fault
  | Some (ScanDone d v' s) =>
      Some (positionals progname (remaining d) (defaults v' s))
  end.

Definition main (progname : string) (args : list string) : option outcome :=
  parse_args progname args uninit.

(** The code [example_cli.c] uses where [example.c] uses [c]. *)
Definition recode (c : Z) : Z :=
  if c =? 33 then 166 else if c =? 68 then 34 else c.

End ExampleCli.

(** ** examples/simple.c *)

Module Simple.
Import Libc Getopt.

Definition char_p := option string.

(** The five objects [parse_args] has pointers to. *)
Record vars := mk_vars {
  out_file : option char_p;
  in_file : option char_p;
  block_size : option Z;
  max_warp : option Z;
  username : option char_p
}.

(** [main] declares the five variables without an initialiser. *)
Definition uninit : vars := mk_vars None None None None None.

Definition set_block_size (x : Z) (v : vars) : vars :=
  mk_vars (out_file v) (in_file v) (Some x) (max_warp v) (username v).
Definition set_max_warp (x : Z) (v : vars) : vars :=
  mk_vars (out_file v) (in_file v) (block_size v) (Some x) (username v).
Definition set_username (x : char_p) (v : vars) : vars :=
  mk_vars (out_file v) (in_file v) (block_size v) (max_warp v) (Some x).

(** The locals [block_size__isset] and [username__isset]. *)
Record issets := mk_issets {
  block_size__isset : bool;
  username__isset : bool
}.

Definition optstring : string := "b:qn:h".

Definition longopts : list option_t :=
  [ mk_option "block-size" required_argument 98;
    mk_option "max_warp" no_argument 113;
    mk_option "cores" required_argument 110;
    mk_option "help" no_argument (code "h") ].

Inductive outcome :=
| Returned (v : vars)
| UsageExit (progname : string) (status : Z)
| Fault.

Inductive switched :=
| Break (v : vars) (s : issets)
| Usage
| NullArg.

Definition switch (c : Z) (arg : char_p) (v : vars) (s : issets) : switched :=
  if c =? 98 then
    match arg with
    | Some a => Break (set_block_size (atoi a) v) (mk_issets true (username__isset s))
    | None => NullArg
    end
  else if c =? 113 then Break (set_max_warp 1 v) s
  else if c =? 110 then
    Break (set_username arg v) (mk_issets (block_size__isset s) true)
  else if c =? 0 then Break v s
  else Usage.

(** The call [getopt_long (argc, argv, "b:qn:h", longopts, NULL)] of line 29. *)
Definition next (d : getopt_data) : getopt_ret :=
  getopt_long optstring longopts d.

Inductive scanned :=
| ScanDone (d : getopt_data) (v : vars) (s : issets)
| ScanUsage
| ScanFault.

(** The [while] loop of lines 29 to 49, for at most [fuel] calls. *)
Fixpoint option_loop (fuel : nat) (d : getopt_data) (v : vars) (s : issets)
    : option scanned :=
  match fuel with
  | O => None
  | S fuel' =>
      let r := next d in
      if ch r =? -1 then Some (ScanDone (data r) v s)
      else
        match switch (ch r) (optarg r) v s with
        | Break v' s' => option_loop fuel' (data r) v' s'
        | Usage => Some ScanUsage
        | NullArg => Some ScanFault
        end
  end.

(** The loop of lines 58 to 61, [while (optind < argc) optind++], entered
    with [n = argc - optind] elements left: it looks at none of them and
    leaves none. *)
Fixpoint positional_loop (n : nat) (l : list string) : list string :=
  match n with
  | O => l
  | S n' => positional_loop n' (tl l)
  end.

(** Lines 50 to 61, after the option loop. *)
Definition after_options (progname : string) (l : list string) (v : vars)
    (s : issets) : outcome :=
  if negb (block_size__isset s) then UsageExit progname 1
  else
    let v1 := if negb (username__isset s)
              then set_username (Some "John Smith") v else v in
    let _ := positional_loop (List.length l) l in
    Returned v1.

Definition parse_args (progname : string) (args : list string) (v : vars)
    : option outcome :=
  match option_loop (S (measure (initial args))) (initial args) v
          (mk_issets false false) with
  | None => None
  | Some ScanUsage => Some (UsageExit progname 1)
  | Some ScanFault => Some Fault
  | Some (ScanDone d v' s) => Some (after_options progname (remaining d) v' s)
  end.

Definition main (progname : string) (args : list string) : option outcome :=
  parse_args progname args uninit.

(** The return values of [getopt_long] up to the call that returns [-1]. *)
Fixpoint codes (fuel : nat) (d : getopt_data) : list Z :=
  match fuel with
  | O => []
  | S fuel' =>
      let r := next d in
      if ch r =? -1 then [] else ch r :: codes fuel' (data r)
  end.

(** The return values of [getopt_long] over the whole of [args]. *)
Definition option_codes (args : list string) : list Z :=
  codes (S (measure (initial args))) (initial args).

(** [parse_args] with the environment: the loop and the stages of
    [parse_args] over [getopt_long_env]. *)
Definition next_env (posixly_correct : bool) (d : getopt_data) : getopt_ret :=
  getopt_long_env posixly_correct optstring longopts d.

Fixpoint option_loop_env (posixly_correct : bool) (fuel : nat)
    (d : getopt_data) (v : vars) (s : issets) : option scanned :=
  match fuel with
  | O => None
  | S fuel' =>
      let r := next_env posixly_correct d in
      if ch r =? -1 then Some (ScanDone (data r) v s)
      else
        match switch (ch r) (optarg r) v s with
        | Break v' s' => option_loop_env posixly_correct fuel' (data r) v' s'
        | Usage => Some ScanUsage
        | NullArg => Some ScanFault
        end
  end.

Definition parse_args_env (posixly_correct : bool) (progname : string)
    (args : list string) (v : vars) : option outcome :=
  match option_loop_env posixly_correct (S (measure (initial args)))
          (initial args) v (mk_issets false false) with
  | None => None
  | Some ScanUsage => Some (UsageExit progname 1)
  | Some ScanFault => Some Fault
  | Some (ScanDone d v' s) => Some (after_options progname (remaining d) v' s)
  end.

End Simple.

(** * Properties *)

(** ** getopt_long makes progress *)

Module GetoptFacts.
Import Libc Getopt.

Lemma measure_eq (no l : list string) (nc : string) :
  measure (mk_data no l nc) = (String.length nc + weight l)%nat.
Proof. reflexivity. Qed.

Lemma weight_app (l1 l2 : list string) :
  weight (l1 ++ l2) = (weight l1 + weight l2)%nat.
Proof.
  unfold weight. rewrite map_app, list_sum_app. reflexivity.
Qed.

Lemma weight_cons (s : string) (l : list string) :
  weight (s :: l) = (S (String.length s) + weight l)%nat.
Proof. reflexivity. Qed.

Lemma skip_nonoptions_app (l : list string) :
  l = fst (skip_nonoptions l) ++ snd (skip_nonoptions l).
Proof.
  induction l as [|s l IH]; simpl; [reflexivity|].
  destruct (nonoption s); [|reflexivity].
  destruct (skip_nonoptions l) as [sk l'']. simpl in *. now f_equal.
Qed.

Lemma skip_nonoptions_head (l : list string) (s : string) (tl : list string) :
  snd (skip_nonoptions l) = s :: tl -> nonoption s = false.
Proof.
  induction l as [|a l IH]; simpl; [discriminate|].
  destruct (nonoption a) eqn:E.
  - destruct (skip_nonoptions l) as [sk l'']. simpl in *. exact IH.
  - simpl. intros H. injection H as -> _. exact E.
Qed.

(** Non-options in front are passed over as a block. *)
Lemma skip_nonoptions_prefix (pre l : list string) :
  Forall (fun s => nonoption s = true) pre ->
  skip_nonoptions (pre ++ l) =
    (pre ++ fst (skip_nonoptions l), snd (skip_nonoptions l)).
Proof.
  induction 1 as [|s pre Hs _ IH]; simpl.
  - now destruct (skip_nonoptions l).
  - rewrite Hs, IH. reflexivity.
Qed.

Lemma short_option_measure os no c cs tl :
  (measure (data (short_option os no c cs tl))
   <= String.length cs + weight tl)%nat.
Proof.
  unfold short_option.
  destruct (strchr os c) as [temp|];
    [|simpl data; rewrite measure_eq; lia].
  destruct (Ascii.eqb c ":" || Ascii.eqb c ";")%bool;
    [simpl data; rewrite measure_eq; lia|].
  destruct (Ascii.eqb (char_at temp 1) ":");
    [|simpl data; rewrite measure_eq; lia].
  destruct (Ascii.eqb (char_at temp 2) ":").
  - destruct cs; simpl data; rewrite measure_eq; simpl; lia.
  - destruct cs; [destruct tl|]; simpl data; rewrite measure_eq;
      try rewrite weight_cons; simpl; lia.
Qed.

Lemma process_long_option_measure lo no body tl :
  (measure (data (process_long_option lo no body tl)) <= weight tl)%nat.
Proof.
  unfold process_long_option.
  destruct (split_eq body) as [nm eqv].
  destruct (lookup lo nm) as [p| |];
    try (simpl data; rewrite measure_eq; simpl; lia).
  destruct eqv as [v|]; destruct (has_arg p); try destruct tl;
    simpl data; rewrite measure_eq; try rewrite weight_cons; simpl; lia.
Qed.

(** A call that returns an option leaves strictly less to read. *)
Lemma getopt_long_decreases os lo d :
  ch (getopt_long os lo d) <> -1 ->
  (measure (data (getopt_long os lo d)) < measure d)%nat.
Proof.
  destruct d as [no l nc]. unfold getopt_long. simpl nextchar.
  simpl rest. simpl nonopts.
  destruct nc as [|c cs].
  - pose proof (skip_nonoptions_app l) as Hl.
    destruct (skip_nonoptions l) as [sk l']. simpl in Hl. subst l.
    rewrite measure_eq, weight_app.
    destruct l' as [|elt tl]; [simpl; congruence|].
    destruct (streq elt "--"); [simpl; congruence|].
    rewrite weight_cons.
    destruct elt as [|c0 [|c cs]]; try (simpl; congruence).
    destruct (Ascii.eqb c "-"); intros _.
    + pose proof (process_long_option_measure lo (no ++ sk) cs tl).
      simpl String.length. lia.
    + pose proof (short_option_measure os (no ++ sk) c cs tl).
      simpl String.length. lia.
  - intros _. rewrite measure_eq.
    pose proof (short_option_measure os no c cs l).
    simpl String.length. lia.
Qed.

(** *** The elements left over keep their order *)

Lemma subseq_refl {A : Type} (l : list A) : subseq l l.
Proof. induction l; constructor; assumption. Qed.

Lemma subseq_trans {A : Type} (l1 l2 l3 : list A) :
  subseq l1 l2 -> subseq l2 l3 -> subseq l1 l3.
Proof.
  intros H12 H23. revert l1 H12.
  induction H23 as [|x l2 l3 _ IH|x l2 l3 _ IH]; intros l1 H12.
  - exact H12.
  - constructor. now apply IH.
  - inversion H12; subst; constructor; now apply IH.
Qed.

Lemma subseq_app {A : Type} (p l1 l2 : list A) :
  subseq l1 l2 -> subseq (p ++ l1) (p ++ l2).
Proof. intros H. induction p; simpl; [exact H|now constructor]. Qed.

Lemma short_option_data os no c cs tl :
  nonopts (data (short_option os no c cs tl)) = no
  /\ subseq (rest (data (short_option os no c cs tl))) tl.
Proof.
  unfold short_option.
  destruct (strchr os c) as [temp|];
    [|split; [reflexivity|apply subseq_refl]].
  destruct (Ascii.eqb c ":" || Ascii.eqb c ";")%bool;
    [split; [reflexivity|apply subseq_refl]|].
  destruct (Ascii.eqb (char_at temp 1) ":");
    [|split; [reflexivity|apply subseq_refl]].
  destruct (Ascii.eqb (char_at temp 2) ":").
  - destruct cs; (split; [reflexivity|apply subseq_refl]).
  - destruct cs; [destruct tl|]; (split; [reflexivity|]); simpl;
      try apply subseq_refl.
    constructor. apply subseq_refl.
Qed.

Lemma process_long_option_data lo no body tl :
  nonopts (data (process_long_option lo no body tl)) = no
  /\ subseq (rest (data (process_long_option lo no body tl))) tl.
Proof.
  unfold process_long_option.
  destruct (split_eq body) as [nm eqv].
  destruct (lookup lo nm) as [p| |];
    try (split; [reflexivity|apply subseq_refl]).
  destruct eqv as [v|]; destruct (has_arg p); try destruct tl;
    (split; [reflexivity|]); simpl; try apply subseq_refl.
  constructor. apply subseq_refl.
Qed.

(** A call drops elements from what is left over and reorders nothing. *)
Lemma getopt_long_subseq os lo d :
  subseq (remaining (data (getopt_long os lo d))) (remaining d).
Proof.
  destruct d as [no l nc]. unfold getopt_long, remaining.
  cbn [nextchar rest nonopts].
  destruct nc as [|c cs].
  - pose proof (skip_nonoptions_app l) as Hl.
    destruct (skip_nonoptions l) as [sk l']. simpl in Hl. subst l.
    destruct l' as [|elt tl].
    { cbn [data nonopts rest]. rewrite !app_nil_r. apply subseq_refl. }
    destruct (streq elt "--").
    { cbn [data nonopts rest]. rewrite app_nil_r, <- !app_assoc.
      apply subseq_app, subseq_app. constructor. apply subseq_refl. }
    rewrite (app_assoc no sk (elt :: tl)).
    destruct elt as [|c0 [|c cs]];
      try (cbn [data nonopts rest]; apply subseq_refl).
    destruct (Ascii.eqb c "-").
    + destruct (process_long_option_data lo (no ++ sk) cs tl) as [-> H].
      apply subseq_app. now constructor.
    + destruct (short_option_data os (no ++ sk) c cs tl) as [-> H].
      apply subseq_app. now constructor.
  - destruct (short_option_data os no c cs l) as [-> H].
    now apply subseq_app.
Qed.

End GetoptFacts.

(** ** The option loop of example.c *)

Module ExampleFacts.
Import Libc Getopt GetoptFacts Example.

(** The positional stage by the number of elements left. *)
Lemma positionals_cases progname l v :
  positionals progname l v =
    match l with
    | [] => UsageExit progname 1
    | [o] => Returned (set_out_file (Some o) v)
    | [o; i] => Returned (set_in_file (Some i) (set_out_file (Some o) v))
    | o :: i :: w :: ws =>
        Returned
          (set_words (w :: ws) (Z.of_nat (List.length (w :: ws)))
             (set_in_file (Some i) (set_out_file (Some o) v)))
    end.
Proof.
  destruct l as [|o [|i [|w ws]]]; try reflexivity.
  unfold positionals. cbn [List.length tl argv_0 hd_error].
  rewrite !Nat2Z.inj_succ.
  destruct (Z.ltb_spec (Z.succ (Z.succ (Z.succ (Z.of_nat (List.length ws))))) 1);
    [lia|].
  destruct (Z.gtb_spec
              (Z.succ (Z.succ (Z.succ (Z.of_nat (List.length ws)))) - 1) 0);
    [|lia].
  destruct (Z.gtb_spec
              (Z.succ (Z.succ (Z.succ (Z.of_nat (List.length ws)))) - 1 - 1) 0);
    [|lia].
  do 2 f_equal. lia.
Qed.

Lemma option_loop_S n d v s :
  option_loop (S n) d v s =
    if ch (next d) =? -1 then Some (ScanDone (data (next d)) v s)
    else match switch (ch (next d)) (optarg (next d)) v s with
         | Break v' s' => option_loop n (data (next d)) v' s'
         | Usage => Some ScanUsage
         | NullArg => Some ScanFault
         end.
Proof. reflexivity. Qed.

Lemma getopt_calls_S n d :
  getopt_calls (S n) d =
    if ch (next d) =? -1 then [] else next d :: getopt_calls n (data (next d)).
Proof. reflexivity. Qed.

Lemma next_decreases d :
  ch (next d) <> -1 -> (measure (data (next d)) < measure d)%nat.
Proof. apply getopt_long_decreases. Qed.

(** With fuel above the measure the loop comes to an end. *)
Lemma option_loop_enough n : forall d v s,
  (measure d < n)%nat -> exists x, option_loop n d v s = Some x.
Proof.
  induction n as [|n IH]; intros d v s Hn; [lia|].
  rewrite option_loop_S.
  destruct (ch (next d) =? -1) eqn:E; [eauto|].
  apply Z.eqb_neq, next_decreases in E.
  destruct (switch _ _ v s); eauto.
  apply IH. lia.
Qed.

(** More fuel does not change what the loop comes to. *)
Lemma option_loop_mono n : forall m d v s x,
  option_loop n d v s = Some x -> (n <= m)%nat ->
  option_loop m d v s = Some x.
Proof.
  induction n as [|n IH]; intros m d v s x H Hm; [discriminate|].
  destruct m as [|m]; [lia|].
  rewrite option_loop_S in *.
  destruct (ch (next d) =? -1); [exact H|].
  destruct (switch _ _ v s); try exact H.
  apply IH; [exact H|lia].
Qed.

Lemma option_loop_fuel n m d v s :
  (measure d < n)%nat -> (measure d < m)%nat ->
  option_loop n d v s = option_loop m d v s.
Proof.
  intros Hn Hm.
  destruct (option_loop_enough n d v s Hn) as [x Hx].
  destruct (Nat.le_ge_cases n m) as [L|L].
  - rewrite Hx. symmetry. now apply option_loop_mono with n.
  - destruct (option_loop_enough m d v s Hm) as [y Hy].
    rewrite Hy. now apply option_loop_mono with m.
Qed.

Lemma getopt_calls_fuel n : forall m d,
  (measure d < n)%nat -> (measure d < m)%nat ->
  getopt_calls n d = getopt_calls m d.
Proof.
  induction n as [|n IH]; intros m d Hn Hm; [lia|].
  destruct m as [|m]; [lia|].
  rewrite !getopt_calls_S.
  destruct (ch (next d) =? -1) eqn:E; [reflexivity|].
  apply Z.eqb_neq, next_decreases in E.
  f_equal. apply IH; lia.
Qed.

(** [parse_args] always comes to an outcome. *)
Lemma parse_args_total progname args v :
  exists o, parse_args progname args v = Some o.
Proof.
  unfold parse_args.
  destruct (option_loop_enough (S (measure (initial args))) (initial args) v
              (mk_issets false false false)) as [x Hx]; [lia|].
  rewrite Hx. destruct x; eauto.
Qed.

(** *** The argument of a value-taking option is never null *)

Lemma lookup_In lo nm p : lookup lo nm = Found p -> In p lo.
Proof.
  unfold lookup.
  destruct (find _ lo) as [q|] eqn:F.
  - intros H. injection H as <-. now apply find_some in F.
  - destruct (filter _ lo) as [|q qs] eqn:G; [discriminate|].
    destruct (forallb _ qs); [|discriminate].
    intros H. injection H as <-.
    assert (In q (q :: qs)) as I by now left.
    rewrite <- G in I. now apply filter_In in I.
Qed.

Lemma longopts_required p :
  In p longopts -> val p = 98 \/ val p = 33 \/ val p = 68 ->
  has_arg p = required_argument.
Proof.
  unfold longopts. simpl In.
  intros [<-|[<-|[<-|[<-|[<-|[]]]]]]; simpl; try reflexivity;
    intros [H|[H|H]]; discriminate H.
Qed.

#[local] Arguments Ascii.eqb : simpl never.

(** Closes a goal whose hypothesis equates a return value that is some other
    code with 98, 33 or 68. *)
Ltac other_code :=
  let H := fresh "H" in
  intros [H|[H|H]]; cbv in H; discriminate H.

Lemma long_optarg no body tl :
  let r := process_long_option longopts no body tl in
  ch r = 98 \/ ch r = 33 \/ ch r = 68 -> optarg r <> None.
Proof.
  unfold process_long_option.
  destruct (split_eq body) as [nm eqv].
  destruct (lookup longopts nm) as [p| |] eqn:L; simpl; try other_code.
  apply lookup_In in L.
  destruct eqv as [a|].
  - destruct (has_arg p) eqn:A; simpl; try discriminate. other_code.
  - destruct (has_arg p) eqn:A; simpl.
    + intros H. rewrite (longopts_required p L H) in A. discriminate.
    + destruct tl; simpl; [other_code|discriminate].
    + intros H. rewrite (longopts_required p L H) in A. discriminate.
Qed.

Lemma short_optarg no c cs tl :
  let r := short_option optstring no c cs tl in
  ch r = 98 \/ ch r = 33 \/ ch r = 68 -> optarg r <> None.
Proof.
  unfold short_option, optstring. simpl strchr.
  destruct (Ascii.eqb "b" c) eqn:Eb.
  - apply Ascii.eqb_eq in Eb. subst c. simpl.
    destruct cs; [destruct tl|]; simpl; try discriminate. other_code.
  - destruct (Ascii.eqb ":" c) eqn:E1.
    { apply Ascii.eqb_eq in E1. subst c. simpl. other_code. }
    destruct (Ascii.eqb "q" c) eqn:E2.
    { apply Ascii.eqb_eq in E2. subst c. simpl. other_code. }
    destruct (Ascii.eqb "h" c) eqn:E3.
    { apply Ascii.eqb_eq in E3. subst c. simpl. other_code. }
    simpl. other_code.
Qed.

Lemma next_optarg d :
  ch (next d) = 98 \/ ch (next d) = 33 \/ ch (next d) = 68 ->
  optarg (next d) <> None.
Proof.
  unfold next, getopt_long.
  destruct (nextchar d) as [|c cs]; [|apply short_optarg].
  destruct (skip_nonoptions (rest d)) as [sk l].
  destruct l as [|elt tl]; [simpl; other_code|].
  destruct (streq elt "--"); [simpl; other_code|].
  destruct elt as [|c0 [|c cs]]; try (simpl; other_code).
  destruct (Ascii.eqb c "-"); [apply long_optarg|apply short_optarg].
Qed.

(** So the [switch] never hands a null pointer to [atoi]. *)
Lemma switch_next_no_fault d v s :
  switch (ch (next d)) (optarg (next d)) v s <> NullArg.
Proof.
  pose proof (next_optarg d) as H. unfold switch.
  destruct (ch (next d) =? 98) eqn:E1.
  - apply Z.eqb_eq in E1.
    destruct (optarg (next d)); [discriminate|]. exfalso. apply H; auto.
  - destruct (ch (next d) =? 33) eqn:E2.
    + apply Z.eqb_eq in E2.
      destruct (optarg (next d)); [discriminate|]. exfalso. apply H; auto.
    + destruct (ch (next d) =? 113); [discriminate|].
      destruct (ch (next d) =? 68); [discriminate|].
      destruct (ch (next d) =? 0); discriminate.
Qed.

Lemma option_loop_no_fault n : forall d v s,
  option_loop n d v s <> Some ScanFault.
Proof.
  induction n as [|n IH]; intros d v s; [discriminate|].
  rewrite option_loop_S.
  destruct (ch (next d) =? -1); [discriminate|].
  pose proof (switch_next_no_fault d v s).
  destruct (switch _ _ v s); [apply IH|discriminate|congruence].
Qed.

Lemma parse_args_no_fault progname args v :
  parse_args progname args v <> Some Fault.
Proof.
  unfold parse_args.
  pose proof (option_loop_no_fault (S (measure (initial args)))
                (initial args) v (mk_issets false false false)) as H.
  destruct (option_loop _ _ v _) as [[d v' s| |]|]; try discriminate.
  - rewrite positionals_cases.
    destruct (remaining d) as [|o [|i [|w l]]]; discriminate.
  - congruence.
Qed.

(** *** The loop and the sequence of return values *)

Lemma codes_S n d :
  codes (S n) d =
    if ch (next d) =? -1 then [] else ch (next d) :: codes n (data (next d)).
Proof.
  unfold codes. rewrite getopt_calls_S.
  now destruct (ch (next d) =? -1).
Qed.

Lemma option_codes_eq args :
  option_codes args = codes (S (measure (initial args))) (initial args).
Proof. reflexivity. Qed.

Lemma codes_fuel n m d :
  (measure d < n)%nat -> (measure d < m)%nat -> codes n d = codes m d.
Proof.
  intros Hn Hm. unfold codes. f_equal. now apply getopt_calls_fuel.
Qed.

Lemma switch_help arg v s : switch (code "h") arg v s = Usage.
Proof. reflexivity. Qed.

(** Once [getopt_long] is to return [h] somewhere in the scan, the loop ends
    in the usage branch. *)
Lemma help_in_codes n : forall d v s,
  In (code "h") (codes n d) -> option_loop n d v s = Some ScanUsage.
Proof.
  induction n as [|n IH]; intros d v s H; [contradiction|].
  rewrite codes_S in H. rewrite option_loop_S.
  destruct (ch (next d) =? -1); [contradiction|].
  pose proof (switch_next_no_fault d v s) as NF.
  destruct (switch _ _ v s) as [v' s'| |] eqn:SW;
    [|reflexivity|congruence].
  destruct H as [H|H]; [|now apply IH].
  rewrite H, switch_help in SW. discriminate.
Qed.

(** Setting [fave_number] beforehand commutes with a scan in which
    [getopt_long] never returns 33. *)
Lemma switch_frame_fave c arg v s y :
  c <> 33 ->
  switch c arg (set_fave_number y v)
    (mk_issets (block_size__isset s) true (username__isset s)) =
  match switch c arg v s with
  | Break v' s' =>
      Break (set_fave_number y v')
        (mk_issets (block_size__isset s') true (username__isset s'))
  | x => x
  end.
Proof.
  intros Hc. unfold switch.
  destruct (c =? 98); [now destruct arg|].
  destruct (c =? 33) eqn:E; [apply Z.eqb_eq in E; contradiction|].
  destruct (c =? 113); [reflexivity|].
  destruct (c =? 68); [reflexivity|].
  now destruct (c =? 0).
Qed.

Lemma option_loop_frame_fave y n : forall d v s x,
  ~ In 33 (codes n d) ->
  option_loop n d v s = Some x ->
  option_loop n d (set_fave_number y v)
    (mk_issets (block_size__isset s) true (username__isset s))
  = Some (with_fave y x).
Proof.
  induction n as [|n IH]; intros d v s x H L; [discriminate|].
  rewrite codes_S in H. rewrite option_loop_S in *.
  destruct (ch (next d) =? -1).
  - injection L as <-. reflexivity.
  - simpl in H. rewrite switch_frame_fave by tauto.
    destruct (switch _ _ v s) as [v' s'| |].
    + apply IH; [tauto|exact L].
    + injection L as <-. reflexivity.
    + injection L as <-. reflexivity.
Qed.

(** Such a scan leaves [fave_number__isset] as it was. *)
Lemma switch_keeps_fave_isset c arg v s v' s' :
  c <> 33 -> switch c arg v s = Break v' s' ->
  fave_number__isset s' = fave_number__isset s.
Proof.
  intros Hc. unfold switch.
  destruct (c =? 98).
  { destruct arg; [|discriminate]. intros H. now injection H as _ <-. }
  destruct (c =? 33) eqn:E; [apply Z.eqb_eq in E; contradiction|].
  destruct (c =? 113). { intros H. now injection H as _ <-. }
  destruct (c =? 68). { intros H. now injection H as _ <-. }
  destruct (c =? 0); [|discriminate]. intros H. now injection H as _ <-.
Qed.

Lemma option_loop_keeps_fave_isset n : forall d v s d' v' s',
  ~ In 33 (codes n d) ->
  option_loop n d v s = Some (ScanDone d' v' s') ->
  fave_number__isset s' = fave_number__isset s.
Proof.
  induction n as [|n IH]; intros d v s d' v' s' H L; [discriminate|].
  rewrite codes_S in H. rewrite option_loop_S in L.
  destruct (ch (next d) =? -1).
  - now injection L as _ _ <-.
  - simpl in H.
    destruct (switch _ _ v s) as [v1 s1| |] eqn:SW; try discriminate.
    apply switch_keeps_fave_isset in SW; [|tauto].
    rewrite <- SW. eapply IH; [|exact L]. tauto.
Qed.

(** What the last two stages do to [fave_number]. *)
Lemma positionals_fave progname l v r :
  positionals progname l v = Returned r -> fave_number r = fave_number v.
Proof.
  rewrite positionals_cases.
  destruct l as [|o [|i [|w l]]]; try discriminate;
    intros H; injection H as <-; reflexivity.
Qed.

Lemma positionals_returns progname l v v' r :
  positionals progname l v = Returned r ->
  exists r', positionals progname l v' = Returned r'.
Proof.
  rewrite !positionals_cases.
  destruct l as [|o [|i [|w l]]]; try discriminate; eauto.
Qed.

Lemma defaults_fave v s :
  fave_number (defaults v s) =
    if fave_number__isset s then fave_number v
    else Some fave_number__default.
Proof.
  unfold defaults.
  destruct (block_size__isset s), (fave_number__isset s),
    (username__isset s); reflexivity.
Qed.

(** *** What a finished scan has written *)

Lemma has_code_In c l : has_code c l = true <-> In c l.
Proof.
  unfold has_code. rewrite existsb_exists. split.
  - intros [x [I E]]. apply Z.eqb_eq in E. now subst.
  - intros I. exists c. split; [exact I|apply Z.eqb_refl].
Qed.

Lemma has_code_not_In c l : ~ In c l -> has_code c l = false.
Proof.
  intros N. destruct (has_code c l) eqn:E; [|reflexivity].
  apply has_code_In in E. contradiction.
Qed.

Lemma scan_effect_nil v s : scan_effect [] v s v s.
Proof.
  constructor; try reflexivity; simpl; now rewrite orb_false_r.
Qed.

Ltac effect_done :=
  constructor; simpl;
  rewrite ?orb_false_r, ?orb_true_r;
  try reflexivity; try discriminate.

Lemma switch_effect c arg v s v' s' :
  switch c arg v s = Break v' s' -> scan_effect [c] v s v' s'.
Proof.
  unfold switch, has_code.
  destruct (c =? 98) eqn:E1.
  { apply Z.eqb_eq in E1. subst c. destruct arg; [|discriminate].
    intros H. injection H as <- <-. effect_done. }
  destruct (c =? 33) eqn:E2.
  { apply Z.eqb_eq in E2. subst c. destruct arg; [|discriminate].
    intros H. injection H as <- <-. effect_done. }
  destruct (c =? 113) eqn:E3.
  { apply Z.eqb_eq in E3. subst c.
    intros H. injection H as <- <-. effect_done. }
  destruct (c =? 68) eqn:E4.
  { apply Z.eqb_eq in E4. subst c.
    intros H. injection H as <- <-. effect_done. }
  destruct (c =? 0); [|discriminate].
  intros H. injection H as <- <-.
  constructor; simpl; rewrite ?E1, ?E2, ?E3, ?E4, ?orb_false_r; reflexivity.
Qed.

Lemma has_code_cons c x l :
  has_code c (x :: l) = (has_code c [x] || has_code c l)%bool.
Proof. unfold has_code. simpl. now rewrite orb_false_r. Qed.

Lemma scan_effect_cons c l v s v1 s1 v2 s2 :
  scan_effect [c] v s v1 s1 -> scan_effect l v1 s1 v2 s2 ->
  scan_effect (c :: l) v s v2 s2.
Proof.
  intros [a1 a2 a3 a4 a5 a6 a7 a8 a9 a10 a11]
         [b1 b2 b3 b4 b5 b6 b7 b8 b9 b10 b11].
  constructor; rewrite ?(has_code_cons _ c l);
    try (rewrite orb_assoc; congruence); try congruence.
  - intros H. apply orb_false_elim in H as [H1 H2]. rewrite b4, a4; auto.
  - intros H. apply orb_false_elim in H as [H1 H2]. rewrite b5, a5; auto.
  - intros H. apply orb_false_elim in H as [H1 H2]. rewrite b6, a6; auto.
  - rewrite b7, a7.
    destruct (has_code 113 [c]), (has_code 113 l); reflexivity.
Qed.

Lemma option_loop_effect n : forall d v s d' v' s',
  option_loop n d v s = Some (ScanDone d' v' s') ->
  scan_effect (codes n d) v s v' s'.
Proof.
  induction n as [|n IH]; intros d v s d' v' s' L; [discriminate|].
  rewrite codes_S. rewrite option_loop_S in L.
  destruct (ch (next d) =? -1).
  - injection L as _ <- <-. apply scan_effect_nil.
  - destruct (switch _ _ v s) as [v1 s1| |] eqn:SW; try discriminate.
    eapply scan_effect_cons; [eapply switch_effect; exact SW|].
    eapply IH. exact L.
Qed.

(** A finished scan has stored a value wherever it has set a flag. *)
Lemma switch_isset_ok d v s v' s' :
  isset_ok v s ->
  switch (ch (next d)) (optarg (next d)) v s = Break v' s' ->
  isset_ok v' s'.
Proof.
  intros [I1 [I2 I3]]. pose proof (next_optarg d) as O.
  unfold switch, isset_ok.
  destruct (ch (next d) =? 98).
  { destruct (optarg (next d)); [|discriminate].
    intros H. injection H as <- <-. simpl. repeat split; eauto. }
  destruct (ch (next d) =? 33).
  { destruct (optarg (next d)); [|discriminate].
    intros H. injection H as <- <-. simpl. repeat split; eauto. }
  destruct (ch (next d) =? 113).
  { intros H. injection H as <- <-. simpl. repeat split; eauto. }
  destruct (ch (next d) =? 68) eqn:E.
  { apply Z.eqb_eq in E. intros H. injection H as <- <-. simpl.
    repeat split; eauto. intros _.
    destruct (optarg (next d)) as [u|]; [now exists u|].
    exfalso. apply O; auto. }
  destruct (ch (next d) =? 0); [|discriminate].
  intros H. injection H as <- <-. repeat split; eauto.
Qed.

Lemma option_loop_isset_ok n : forall d v s d' v' s',
  isset_ok v s ->
  option_loop n d v s = Some (ScanDone d' v' s') ->
  isset_ok v' s'.
Proof.
  induction n as [|n IH]; intros d v s d' v' s' I L; [discriminate|].
  rewrite option_loop_S in L.
  destruct (ch (next d) =? -1).
  - injection L as _ <- <-. exact I.
  - destruct (switch _ _ v s) as [v1 s1| |] eqn:SW; try discriminate.
    eapply IH; [|exact L]. eapply switch_isset_ok; eauto.
Qed.

Lemma isset_ok_initial v : isset_ok v (mk_issets false false false).
Proof. repeat split; discriminate. Qed.

(** *** What is left for the positional arguments *)

Lemma option_loop_subseq n : forall d v s d' v' s',
  option_loop n d v s = Some (ScanDone d' v' s') ->
  subseq (remaining d') (remaining d).
Proof.
  induction n as [|n IH]; intros d v s d' v' s' L; [discriminate|].
  rewrite option_loop_S in L.
  pose proof (getopt_long_subseq optstring longopts d) as H.
  fold (next d) in H.
  destruct (ch (next d) =? -1).
  - now injection L as <- _ _.
  - destruct (switch _ _ v s) as [v1 s1| |]; try discriminate.
    eapply subseq_trans; [eapply IH; exact L|exact H].
Qed.

Lemma skip_nonoptions_all (l : list string) :
  Forall (fun s => nonoption s = true) l -> skip_nonoptions l = (l, []).
Proof.
  induction 1 as [|s l Hs _ IH]; simpl; [reflexivity|].
  now rewrite Hs, IH.
Qed.

(** Arguments that are all non-options go to the positional stage as they
    are. *)
Lemma next_nonoptions (args : list string) :
  Forall (fun s => nonoption s = true) args ->
  next (initial args) = mk_ret (-1) None (mk_data args [] "").
Proof.
  intros H. unfold next, getopt_long, initial.
  cbn [nextchar rest nonopts]. now rewrite skip_nonoptions_all.
Qed.

(** Two states on which the next call hands back the same thing are
    scanned alike. *)
Lemma option_loop_same_next d1 d2 v s :
  next d1 = next d2 ->
  option_loop (S (measure d1)) d1 v s = option_loop (S (measure d2)) d2 v s.
Proof.
  intros E. rewrite !option_loop_S, E.
  destruct (ch (next d2) =? -1) eqn:C; [reflexivity|].
  apply Z.eqb_neq in C.
  assert (measure (data (next d2)) < measure d1)%nat
    as M1 by (rewrite <- E; apply next_decreases; now rewrite E).
  pose proof (next_decreases _ C) as M2.
  destruct (switch _ _ v s) as [v' s'| |]; try reflexivity.
  now rewrite (option_loop_fuel _ (measure d2) _ v' s' M1 M2).
Qed.

End ExampleFacts.

(** ** The claims about examples/example.c *)

Module ExampleClaims.
Import Libc Getopt GetoptFacts Example ExampleFacts.

(** Two argument vectors on which the first call of [getopt_long] hands
    back the same thing are parsed alike. *)
Lemma parse_args_same_next progname l1 l2 v :
  next (initial l1) = next (initial l2) ->
  parse_args progname l1 v = parse_args progname l2 v.
Proof.
  intros E. unfold parse_args.
  now rewrite (option_loop_same_next _ _ v (mk_issets false false false) E).
Qed.

(** X8. What a successful parse has bound.  The three value-taking options hold
    a value, their default if [getopt_long] never returned their code, and
    [out_file] holds the first element left over; [quiet] is 1 if the code
    of [-q] was returned and otherwise what it was before the call. *)
Lemma successful_parse_bindings progname args v r :
  parse_args progname args v = Some (Returned r) ->
  (exists b, block_size r = Some b)
  /\ (exists f, fave_number r = Some f)
  /\ (exists u, username r = Some (Some u))
  /\ (exists o, out_file r = Some (Some o))
  /\ (~ In 98 (option_codes args) -> block_size r = Some 12)
  /\ (~ In 33 (option_codes args) -> fave_number r = Some (to_int 0xDEADBEEF))
  /\ (~ In 68 (option_codes args) -> username r = Some (Some "John Smith"))
  /\ (In 113 (option_codes args) -> quiet r = Some 1)
  /\ (~ In 113 (option_codes args) -> quiet r = quiet v).
Proof.
  unfold parse_args, option_codes. intros P.
  destruct (option_loop (S (measure (initial args))) (initial args) v
              (mk_issets false false false))
    as [[d' v' s'| |]|] eqn:L; try discriminate.
  injection P as P.
  destruct (option_loop_effect _ _ _ _ _ _ _ L)
    as [e1 e2 e3 e4 e5 e6 e7 _ _ _ _].
  destruct (option_loop_isset_ok _ _ _ _ _ _ _ (isset_ok_initial v) L)
    as [I1 [I2 I3]].
  set (l := codes (S (measure (initial args))) (initial args)) in *.
  simpl in e1, e2, e3.
  assert (block_size r = block_size (defaults v' s')
          /\ fave_number r = fave_number (defaults v' s')
          /\ username r = username (defaults v' s')
          /\ quiet r = quiet v'
          /\ exists o, out_file r = Some (Some o)) as [R1 [R2 [R3 [R4 R5]]]].
  { assert (quiet (defaults v' s') = quiet v') as Q
      by (unfold defaults; destruct (block_size__isset s'),
            (fave_number__isset s'), (username__isset s'); reflexivity).
    rewrite positionals_cases in P.
    destruct (remaining d') as [|o [|i [|w ws]]]; try discriminate;
      injection P as <-;
      cbn [quiet out_file block_size fave_number username
             set_out_file set_in_file set_words];
      repeat split; eauto. }
  rewrite R1, R2, R3, R4. clear R1 R2 R3 R4 P.
  unfold defaults.
  destruct (block_size__isset s') eqn:B, (fave_number__isset s') eqn:F,
    (username__isset s') eqn:U; cbn [block_size fave_number username
      set_block_size set_fave_number set_username];
    repeat split; eauto;
    try (intros N; apply has_code_not_In in N; congruence);
    try (intros N; apply has_code_In in N; rewrite e7, N; reflexivity);
    try (intros N; apply has_code_not_In in N; rewrite e7, N; reflexivity).
Qed.

(** X9. The elements left over by the option loop are arguments in their
    original order; the first goes to [out_file], the second to [in_file],
    and if there are more they are [words], [words__size] of them; if there
    are not, [words] and [words__size] are what they were before the call. *)
Lemma words_are_the_tokens_left_over progname args v r :
  parse_args progname args v = Some (Returned r) ->
  exists d' v' s',
    option_loop (S (measure (initial args))) (initial args) v
      (mk_issets false false false) = Some (ScanDone d' v' s')
    /\ subseq (remaining d') args
    /\ match remaining d' with
       | o :: i :: w :: ws =>
           out_file r = Some (Some o) /\ in_file r = Some (Some i)
           /\ words r = Some (w :: ws)
           /\ words__size r = Some (Z.of_nat (List.length (w :: ws)))
       | [o; i] =>
           out_file r = Some (Some o) /\ in_file r = Some (Some i)
           /\ words r = words v /\ words__size r = words__size v
       | [o] =>
           out_file r = Some (Some o) /\ in_file r = in_file v
           /\ words r = words v /\ words__size r = words__size v
       | [] => False
       end.
Proof.
  unfold parse_args. intros P.
  destruct (option_loop (S (measure (initial args))) (initial args) v
              (mk_issets false false false))
    as [[d' v' s'| |]|] eqn:L; try discriminate.
  injection P as P. exists d', v', s'.
  split; [reflexivity|]. split; [exact (option_loop_subseq _ _ _ _ _ _ _ L)|].
  destruct (option_loop_effect _ _ _ _ _ _ _ L)
    as [_ _ _ _ _ _ _ e8 e9 e10 e11].
  assert (in_file (defaults v' s') = in_file v
          /\ words (defaults v' s') = words v
          /\ words__size (defaults v' s') = words__size v) as [D1 [D2 D3]].
  { unfold defaults.
    destruct (block_size__isset s'), (fave_number__isset s'),
      (username__isset s'); simpl; auto. }
  rewrite positionals_cases in P.
  destruct (remaining d') as [|o [|i [|w ws]]]; try discriminate;
    injection P as <-; simpl; repeat split; assumption.
Qed.

(** C1. After a successful parse without [-q] nothing has been stored in
    [quiet]: for the arguments [out.txt], [main]'s variable is as
    uninitialised as before the call, while the three value-taking options
    hold their defaults. *)
Theorem main_leaves_quiet_unassigned :
  main "prog" ["out.txt"] =
    Some (Returned
      (mk_vars (Some 12) (Some (to_int 0xDEADBEEF)) None
         (Some (Some "John Smith")) (Some (Some "out.txt")) None None None)).
Proof. reflexivity. Qed.

(** C2 as stated fails: with no argument at all the outcome is the usage
    and [exit (1)] and nothing more.  It names neither a kind of error nor a
    slot, and is the very outcome of the help flag and of an unrecognized
    option. *)
Lemma missing_positional_not_distinguished :
  main "prog" [] = Some (UsageExit "prog" 1)
  /\ main "prog" [] = main "prog" ["--help"]
  /\ main "prog" [] = main "prog" ["--bogus"; "out.txt"].
Proof. repeat split. Qed.

(** C2, amended.  With no argument at all the option loop ends at once with
    nothing left over, and the test [argc - optind < 1] sends [parse_args]
    to the usage and [exit (1)], the outcome it has for the help flag too:
    it neither returns nor faults. *)
Theorem empty_args_usage_exit (progname : string) (v : vars) :
  option_loop 1 (initial []) v (mk_issets false false false)
    = Some (ScanDone (mk_data [] [] "") v (mk_issets false false false))
  /\ remaining (mk_data [] [] "") = []
  /\ parse_args progname [] v = Some (UsageExit progname 1)
  /\ parse_args progname [] v = parse_args progname ["--help"] v
  /\ (forall r, parse_args progname [] v <> Some (Returned r))
  /\ parse_args progname [] v <> Some Fault.
Proof.
  repeat split; try reflexivity; intros; discriminate.
Qed.

(** C3 as stated fails: the help flag, an unrecognized option and a missing
    positional argument end in one and the same outcome. *)
Lemma help_same_as_unknown_option :
  main "prog" ["--help"] = Some (UsageExit "prog" 1)
  /\ main "prog" ["-h"] = main "prog" ["--bogus"]
  /\ main "prog" ["--help"] = main "prog" ["-x"; "out.txt"]
  /\ main "prog" ["-h"] = main "prog" [].
Proof. repeat split. Qed.

(** C3, amended.  If [getopt_long] returns [h] anywhere in its scan of the
    arguments, the loop ends in its usage branch and [parse_args] prints the
    usage and exits with status 1, whatever the other arguments are: it
    applies no default and does not look at the positional arguments. *)
Theorem help_stops_scan (progname : string) (args : list string) (v : vars) :
  In (code "h") (option_codes args) ->
  option_loop (S (measure (initial args))) (initial args) v
    (mk_issets false false false) = Some ScanUsage
  /\ parse_args progname args v = Some (UsageExit progname 1).
Proof.
  intros H. rewrite option_codes_eq in H.
  pose proof (help_in_codes _ _ v (mk_issets false false false) H) as L.
  split; [exact L|]. unfold parse_args. now rewrite L.
Qed.

Lemma help_stops_scan_witness :
  In (code "h") (option_codes ["-q"; "out.txt"; "--help"; "--bogus"])
  /\ parse_args "prog" ["-q"; "out.txt"; "--help"; "--bogus"] uninit
     = Some (UsageExit "prog" 1).
Proof.
  split.
  - vm_compute. tauto.
  - apply (help_stops_scan "prog" ["-q"; "out.txt"; "--help"; "--bogus"] uninit).
    vm_compute. tauto.
Defined.

(** The help flag in the first place that is read as an option ends the
    parse in the usage, whatever follows it. *)
Lemma help_flag_ignores_tail progname pre flag tl v :
  Forall (fun s => nonoption s = true) pre ->
  flag = "-h" \/ flag = "--help" ->
  parse_args progname (pre ++ flag :: tl) v = Some (UsageExit progname 1).
Proof.
  intros Hpre Hflag. unfold parse_args. rewrite option_loop_S.
  unfold next at 1 2 3 4, getopt_long, initial. cbn [nextchar rest nonopts].
  rewrite skip_nonoptions_prefix by exact Hpre.
  destruct Hflag as [-> | ->]; reflexivity.
Qed.

(** Whatever the caller's variables hold, [-b 20 out.txt in.txt foo bar]
    stores seven of the eight and passes [quiet] by. *)
Lemma scenario_keeps_quiet (progname : string) (v : vars) :
  parse_args progname ["-b"; "20"; "out.txt"; "in.txt"; "foo"; "bar"] v =
    Some (Returned
      (mk_vars (Some 20) (Some fave_number__default) (quiet v)
         (Some (Some "John Smith")) (Some (Some "out.txt"))
         (Some (Some "in.txt")) (Some ["foo"; "bar"]) (Some 2))).
Proof. reflexivity. Qed.

(** C4. [-b 20 out.txt in.txt foo bar] is parsed with success: [block_size]
    is 20, [out_file] is [out.txt], [in_file] is [in.txt], [words] are [foo]
    and [bar], two of them.  But [quiet] is bound to nothing: no value has
    been stored in it, and [main]'s variable is as uninitialised as before
    the call. *)
Theorem scenario_block_size_20 (progname : string) :
  main progname ["-b"; "20"; "out.txt"; "in.txt"; "foo"; "bar"] =
    Some (Returned
      (mk_vars (Some 20) (Some fave_number__default) None
         (Some (Some "John Smith")) (Some (Some "out.txt"))
         (Some (Some "in.txt")) (Some ["foo"; "bar"]) (Some 2))).
Proof. apply scenario_keeps_quiet. Qed.

(** Arguments without any option are distributed as they stand. *)
Lemma parse_args_nonoptions progname args v :
  Forall (fun s => nonoption s = true) args ->
  parse_args progname args v =
    Some (positionals progname args
            (defaults v (mk_issets false false false))).
Proof.
  intros H. unfold parse_args.
  rewrite option_loop_S, (next_nonoptions args H).
  cbn [ch data]. change (-1 =? -1) with true. cbv iota.
  unfold remaining. cbn [nonopts rest]. now rewrite app_nil_r.
Qed.

(** C5. When no argument is left after [out_file] and [in_file], nothing is
    stored in [words] and [words__size]: after [out.txt in.txt] they are what
    they were before the call, in [main] uninitialised. *)
Theorem no_words_leaves_words_unassigned :
  (forall progname v,
     exists r,
       parse_args progname ["out.txt"; "in.txt"] v = Some (Returned r)
       /\ words r = words v /\ words__size r = words__size v)
  /\ (exists r,
       main "prog" ["out.txt"; "in.txt"] = Some (Returned r)
       /\ words r = None /\ words__size r = None).
Proof.
  split; [intros progname v|]; eexists; repeat split.
Qed.

(** After non-options, [--name=value] and [--name value] make the call of
    [getopt_long] hand back the same option, the same [optarg] and the same
    elements left to read. *)
Lemma next_attached_or_separate no pre nm value tl :
  Forall (fun s => nonoption s = true) pre ->
  In nm value_options ->
  next (mk_data no (pre ++ ("--" ++ nm ++ "=" ++ value)%string :: tl) "") =
  next (mk_data no (pre ++ ("--" ++ nm)%string :: value :: tl) "").
Proof.
  intros Hpre Hnm. unfold next, getopt_long.
  cbn [nextchar rest nonopts].
  rewrite !skip_nonoptions_prefix by exact Hpre.
  unfold value_options in Hnm. simpl In in Hnm.
  destruct Hnm as [<-|[<-|[<-|[]]]]; reflexivity.
Qed.

(** C6. For each of the value-taking long options [block-size], [fav-number]
    and [name] and every value, [--option=value] and [--option value] are
    parsed alike: wherever the scan comes to the option at the start of an
    element, after non-options [pre] and with arbitrary arguments [tl]
    behind, the option loop ends the same way with the same values, and so
    does [parse_args] on arguments that start with [pre]. *)
Theorem attached_value_same_as_separate
    (progname : string) (pre : list string) (nm value : string)
    (tl : list string) (v : vars) :
  Forall (fun s => nonoption s = true) pre ->
  In nm value_options ->
  (forall no s,
     option_loop
       (S (measure (mk_data no (pre ++ ("--" ++ nm ++ "=" ++ value)%string :: tl) "")))
       (mk_data no (pre ++ ("--" ++ nm ++ "=" ++ value)%string :: tl) "") v s =
     option_loop
       (S (measure (mk_data no (pre ++ ("--" ++ nm)%string :: value :: tl) "")))
       (mk_data no (pre ++ ("--" ++ nm)%string :: value :: tl) "") v s)
  /\ parse_args progname (pre ++ ("--" ++ nm ++ "=" ++ value)%string :: tl) v =
     parse_args progname (pre ++ ("--" ++ nm)%string :: value :: tl) v.
Proof.
  intros Hpre Hnm. split.
  - intros no s. apply option_loop_same_next.
    now apply next_attached_or_separate.
  - apply parse_args_same_next. now apply next_attached_or_separate.
Qed.

Lemma attached_value_same_as_separate_witness :
  parse_args "prog" ["out.txt"; "--block-size=20"; "in.txt"] uninit =
  parse_args "prog" ["out.txt"; "--block-size"; "20"; "in.txt"] uninit
  /\ parse_args "prog" ["out.txt"; "--block-size=20"; "in.txt"] uninit =
     Some (Returned
       (mk_vars (Some 20) (Some fave_number__default) None
          (Some (Some "John Smith")) (Some (Some "out.txt"))
          (Some (Some "in.txt")) None None)).
Proof.
  split; [|reflexivity].
  apply (attached_value_same_as_separate "prog" ["out.txt"] "block-size" "20"
           ["in.txt"] uninit).
  - repeat constructor.
  - simpl. tauto.
Defined.

(** C7. The long options [--bs] and [--blocksize], which the usage text
    announces as aliases of [--block-size], are not in [longopts]: they end
    in the usage and [exit (1)], where [--block-size] is parsed with
    success. *)
Theorem aliases_not_recognized :
  main "prog" ["--bs"; "20"; "out.txt"] = Some (UsageExit "prog" 1)
  /\ main "prog" ["--blocksize"; "20"; "out.txt"] = Some (UsageExit "prog" 1)
  /\ main "prog" ["--block-size"; "20"; "out.txt"] =
       Some (Returned
         (mk_vars (Some 20) (Some fave_number__default) None
            (Some (Some "John Smith")) (Some (Some "out.txt"))
            None None None)).
Proof. repeat split. Qed.

Lemma next_fav_number_zero args :
  next (initial ("--fav-number" :: "0" :: args)) =
    mk_ret 33 (Some "0") (initial args).
Proof. reflexivity. Qed.

(** C8. A successful parse in which [getopt_long] never returns the code of
    [--fav-number] leaves [fave_number] at its default, the [int] with the
    bits of [0xDEADBEEF]; the same arguments after [--fav-number 0] are
    parsed with success too and leave it at 0, which is another value. *)
Theorem fav_number_default_vs_zero
    (progname : string) (args : list string) (v : vars) (r : vars) :
  parse_args progname args v = Some (Returned r) ->
  ~ In 33 (option_codes args) ->
  fave_number r = Some (to_int 0xDEADBEEF)
  /\ to_int 0xDEADBEEF mod 2 ^ 32 = 0xDEADBEEF
  /\ exists r',
       parse_args progname ("--fav-number" :: "0" :: args) v
         = Some (Returned r')
       /\ fave_number r' = Some 0
       /\ fave_number r' <> fave_number r.
Proof.
  intros P N. rewrite option_codes_eq in N.
  unfold parse_args in P.
  destruct (option_loop (S (measure (initial args))) (initial args) v
              (mk_issets false false false))
    as [[d' v' s'| |]|] eqn:L; try discriminate.
  injection P as P.
  pose proof (option_loop_keeps_fave_isset _ _ _ _ _ _ _ N L) as I.
  simpl in I.
  assert (fave_number r = Some (to_int 0xDEADBEEF)) as R.
  { rewrite (positionals_fave _ _ _ _ P), defaults_fave, I. reflexivity. }
  split; [exact R|]. split; [reflexivity|].
  pose proof (option_loop_frame_fave (atoi "0") _ _ _ _ _ N L) as L0.
  simpl with_fave in L0. simpl block_size__isset in L0.
  simpl username__isset in L0.
  destruct (positionals_returns progname (remaining d') _
              (defaults (set_fave_number (atoi "0") v')
                 (mk_issets (block_size__isset s') true (username__isset s')))
              _ P) as [r' P'].
  exists r'.
  assert (fave_number r' = Some 0) as R'.
  { rewrite (positionals_fave _ _ _ _ P'), defaults_fave. reflexivity. }
  split; [|split; [exact R'|rewrite R, R'; discriminate]].
  unfold parse_args. rewrite option_loop_S, next_fav_number_zero.
  cbn [ch optarg data]. change (33 =? -1) with false.
  change (switch 33 (Some "0") v (mk_issets false false false))
    with (Break (set_fave_number (atoi "0") v) (mk_issets false true false)).
  cbv beta iota.
  rewrite (option_loop_fuel _ (S (measure (initial args)))); [| |lia].
  - rewrite L0, P'. reflexivity.
  - unfold initial. rewrite !measure_eq, !weight_cons. lia.
Qed.

Lemma fav_number_default_vs_zero_witness :
  exists r,
    parse_args "prog" ["-q"; "out.txt"] uninit = Some (Returned r)
    /\ fave_number r = Some (to_int 0xDEADBEEF)
    /\ exists r',
         parse_args "prog" ["--fav-number"; "0"; "-q"; "out.txt"] uninit
           = Some (Returned r')
         /\ fave_number r' = Some 0.
Proof.
  eexists. split; [reflexivity|].
  destruct (fav_number_default_vs_zero "prog" ["-q"; "out.txt"] uninit _
              eq_refl) as [R [_ [r' [P' [R' _]]]]].
  - vm_compute. intros [H|[]]. discriminate H.
  - split; [exact R|]. exists r'. split; [exact P'|exact R'].
Defined.

End ExampleClaims.

(** ** The claims about examples/simple_gen.c *)

Module SimpleGenClaims.
Import Libc SimpleGen.

Local Open Scope nat_scope.

Lemma argv_at_some (argv : list string) (i : nat) :
  i < List.length argv -> exists s, argv_at argv i = Some s.
Proof.
  intros H. unfold argv_at.
  destruct (nth_error argv i) eqn:E; [eauto|].
  apply nth_error_None in E. lia.
Qed.

Lemma argv_at_cons (s : string) (l : list string) (n : nat) :
  argv_at (s :: l) (S n) = argv_at l n.
Proof. reflexivity. Qed.

Lemma argv_at_app (pre l : list string) (n : nat) :
  argv_at (pre ++ l) (List.length pre + n) = argv_at l n.
Proof.
  unfold argv_at. rewrite nth_error_app2 by lia.
  f_equal. lia.
Qed.

Lemma argv_at_argc (argv : list string) :
  argv_at argv (List.length argv) = None.
Proof. apply nth_error_None. lia. Qed.

(** When the last argument is one of the two option names, the loop reads
    [argv[argc]] and dereferences the null pointer it finds there. *)
Lemma for_loop_option_last n : forall i argv a log nm,
  i + n = List.length argv -> 0 < n ->
  argv_at argv (List.length argv - 1) = Some nm ->
  option_name nm = true ->
  res (for_loop n i argv a log) = NullDeref (List.length argv)
  /\ In (List.length argv) (reads (for_loop n i argv a log)).
Proof.
  induction n as [|n IH]; intros i argv a log nm Hi Hn Hlast Hnm; [lia|].
  cbn [for_loop].
  destruct (Nat.eq_dec n 0) as [->|Hn0].
  - replace (List.length argv - 1) with i in Hlast by lia.
    replace (List.length argv) with (S i) by lia.
    rewrite Hlast.
    replace (argv_at argv (S i)) with (@None string)
      by (symmetry; replace (S i) with (List.length argv) by lia;
          apply argv_at_argc).
    unfold option_name in Hnm.
    destruct (streq nm "--int_arg"); [|simpl in Hnm; rewrite Hnm];
      cbn [res reads]; (split; [reflexivity|]);
      rewrite <- in_rev; now left.
  - destruct (argv_at_some argv i) as [s ->]; [lia|].
    destruct (argv_at_some argv (S i)) as [s' ->]; [lia|].
    destruct (streq s "--int_arg"); [|destruct (streq s "--char_arg")];
      apply IH with nm; try assumption; lia.
Qed.

(** When the last two arguments are [--int_arg] and a value that is not an
    option name, the loop stores the value in [int_arg] and, one iteration
    later, in [np_arg] as well. *)
Lemma for_loop_value_last n : forall i argv a log value,
  i + n = List.length argv -> 1 < n ->
  argv_at argv (List.length argv - 2) = Some "--int_arg"%string ->
  argv_at argv (List.length argv - 1) = Some value ->
  option_name value = false ->
  exists a',
    res (for_loop n i argv a log) = Finished a'
    /\ int_arg a' = Some (atoi value) /\ np_arg a' = Some (atoi value).
Proof.
  induction n as [|n IH]; intros i argv a log value Hi Hn H2 H1 Hv; [lia|].
  cbn [for_loop].
  destruct (Nat.eq_dec n 1) as [->|Hn1].
  - replace (List.length argv - 2) with i in H2 by lia.
    replace (List.length argv - 1) with (S i) in H1 by lia.
    rewrite H2, H1. cbn [streq String.eqb Ascii.eqb Bool.eqb for_loop].
    rewrite H1. unfold option_name in Hv.
    apply orb_false_elim in Hv as [-> ->].
    eexists. cbn [res int_arg np_arg]. repeat split.
  - destruct (argv_at_some argv i) as [s ->]; [lia|].
    destruct (argv_at_some argv (S i)) as [s' ->]; [lia|].
    destruct (streq s "--int_arg"); [|destruct (streq s "--char_arg")];
      apply IH; try assumption; lia.
Qed.

(** C9. With [--int_arg] as the last argument, [populate_args] reads
    [argv[argc]], an index that is not below [argc], and dereferences the
    null pointer stored there. *)
Theorem int_arg_last_reads_argv_argc :
  let argv := ["a.out"; "--int_arg"]%string in
  populate_args uninit argv = mk_run [1; 2] (NullDeref 2)
  /\ argc argv = 2
  /\ In (argc argv) (reads (populate_args uninit argv))
  /\ ~ Forall (fun i => i < argc argv) (reads (populate_args uninit argv)).
Proof.
  cbv zeta. repeat split.
  - right. now left.
  - intros H. rewrite Forall_forall in H.
    specialize (H 2 (or_intror (or_introl eq_refl))).
    unfold argc in H. simpl in H. lia.
Qed.

(** C10. After [4 --int_arg 2] the value 2 is in [int_arg] and, taken as a
    positional argument too, has replaced the 4 in [np_arg]. *)
Theorem value_token_overwrites_np_arg :
  populate_args uninit ["a.out"; "4"; "--int_arg"; "2"]%string =
    mk_run [1; 2; 3; 3]
      (Finished (mk_args (Some 2%Z) None (Some 2%Z)))
  /\ res (populate_args uninit ["a.out"; "4"]%string) =
       Finished (mk_args None None (Some 4%Z)).
Proof. split; reflexivity. Qed.

(** The same for every argument vector: an option name in last place makes
    the run read [argv[argc]]. *)
Lemma option_last_reads_argv_argc a progname pre nm :
  option_name nm = true ->
  let argv := progname :: pre ++ [nm] in
  res (populate_args a argv) = NullDeref (argc argv)
  /\ In (argc argv) (reads (populate_args a argv)).
Proof.
  intros Hnm argv. unfold populate_args, argc.
  apply for_loop_option_last with nm; subst argv; cbn [List.length];
    rewrite ?length_app; cbn [List.length]; try lia; try assumption.
  replace (S (List.length pre + 1) - 1) with (S (List.length pre + 0)) by lia.
  now rewrite argv_at_cons, argv_at_app.
Qed.

(** And a value in last place, after [--int_arg], ends in [int_arg] and in
    [np_arg] alike, whatever came before. *)
Lemma value_last_overwrites_np_arg a progname pre value :
  option_name value = false ->
  exists a',
    res (populate_args a (progname :: pre ++ ["--int_arg"%string; value]))
      = Finished a'
    /\ int_arg a' = Some (atoi value) /\ np_arg a' = Some (atoi value).
Proof.
  intros Hv. unfold populate_args, argc.
  apply for_loop_value_last; cbn [List.length];
    rewrite ?length_app; cbn [List.length]; try lia; try assumption.
  - replace (S (List.length pre + 2) - 2) with (S (List.length pre + 0)) by lia.
    now rewrite argv_at_cons, argv_at_app.
  - replace (S (List.length pre + 2) - 1) with (S (List.length pre + 1)) by lia.
    now rewrite argv_at_cons, argv_at_app.
Qed.

End SimpleGenClaims.

(** ** examples/example_cli.c parses as examples/example.c does *)

Module ExampleCliFacts.
Import Libc Getopt GetoptFacts Example ExampleFacts.

#[local] Arguments String.eqb : simpl never.
#[local] Arguments String.prefix : simpl never.
#[local] Arguments Ascii.eqb : simpl never.

Definition recode_option (p : option_t) : option_t :=
  mk_option (name p) (has_arg p) (ExampleCli.recode (val p)).

(** The two tables answer every name alike, up to the two codes. *)
Lemma lookup_cli nm :
  lookup ExampleCli.longopts nm =
    match lookup longopts nm with
    | Found p => Found (recode_option p)
    | Ambiguous => Ambiguous
    | Unrecognized => Unrecognized
    end.
Proof.
  unfold lookup, ExampleCli.longopts, longopts, streq.
  cbn [find filter name].
  destruct (String.eqb "block-size" nm); [reflexivity|].
  destruct (String.eqb "fav-number" nm); [reflexivity|].
  destruct (String.eqb "quiet" nm); [reflexivity|].
  destruct (String.eqb "name" nm); [reflexivity|].
  destruct (String.eqb "help" nm); [reflexivity|].
  destruct (String.prefix nm "block-size"), (String.prefix nm "fav-number"),
    (String.prefix nm "quiet"), (String.prefix nm "name"),
    (String.prefix nm "help"); reflexivity.
Qed.

Definition recode_ret (r : getopt_ret) : getopt_ret :=
  mk_ret (ExampleCli.recode (ch r)) (optarg r) (data r).

Lemma process_long_option_cli no body tl :
  process_long_option ExampleCli.longopts no body tl =
    recode_ret (process_long_option longopts no body tl).
Proof.
  unfold process_long_option.
  destruct (split_eq body) as [nm eqv].
  rewrite lookup_cli.
  destruct (lookup longopts nm) as [p| |]; try reflexivity.
  destruct eqv as [a|]; cbn [recode_option has_arg val];
    destruct (has_arg p); try destruct tl; reflexivity.
Qed.

(** The codes a short option of ["b:qh"] can come back with. *)
Lemma short_option_code no c cs tl :
  In (ch (short_option optstring no c cs tl)) [QUESTION; 98; 113; 104].
Proof.
  unfold short_option, optstring. cbn [strchr].
  destruct (Ascii.eqb "b" c) eqn:Eb.
  - apply Ascii.eqb_eq in Eb. subst c. simpl.
    destruct cs; [destruct tl|]; simpl; tauto.
  - destruct (Ascii.eqb ":" c) eqn:E1.
    { apply Ascii.eqb_eq in E1. subst c. simpl. tauto. }
    destruct (Ascii.eqb "q" c) eqn:E2.
    { apply Ascii.eqb_eq in E2. subst c. simpl. tauto. }
    destruct (Ascii.eqb "h" c) eqn:E3.
    { apply Ascii.eqb_eq in E3. subst c. simpl. tauto. }
    simpl. tauto.
Qed.

Lemma short_option_cli no c cs tl :
  short_option ExampleCli.optstring no c cs tl =
    recode_ret (short_option optstring no c cs tl).
Proof.
  change ExampleCli.optstring with optstring.
  pose proof (short_option_code no c cs tl) as H.
  destruct (short_option optstring no c cs tl) as [k oa d].
  unfold recode_ret. cbn [ch optarg data] in *.
  destruct H as [<-|[<-|[<-|[<-|[]]]]]; reflexivity.
Qed.

Lemma next_cli d : ExampleCli.next d = recode_ret (next d).
Proof.
  unfold ExampleCli.next, next, getopt_long.
  destruct (nextchar d) as [|c cs]; [|apply short_option_cli].
  destruct (skip_nonoptions (rest d)) as [sk l].
  destruct l as [|elt tl]; [reflexivity|].
  destruct (streq elt "--"); [reflexivity|].
  destruct elt as [|c0 [|c cs]]; try reflexivity.
  destruct (Ascii.eqb c "-");
    [apply process_long_option_cli|apply short_option_cli].
Qed.

(** The codes [getopt_long] can come back with in [example.c]. *)
Lemma long_option_code no body tl :
  In (ch (process_long_option longopts no body tl))
    [QUESTION; 98; 33; 113; 68; 104].
Proof.
  unfold process_long_option.
  destruct (split_eq body) as [nm eqv].
  destruct (lookup longopts nm) as [p| |] eqn:L; try (simpl; tauto).
  apply lookup_In in L.
  assert (In (val p) [98; 33; 113; 68; 104]) as V.
  { unfold longopts in L. simpl In in L.
    destruct L as [<-|[<-|[<-|[<-|[<-|[]]]]]]; simpl; tauto. }
  destruct eqv as [a|]; destruct (has_arg p); try destruct tl;
    cbn [ch]; simpl In in *; tauto.
Qed.

Lemma next_code d : In (ch (next d)) [-1; QUESTION; 98; 33; 113; 68; 104].
Proof.
  assert (forall no c cs tl,
            In (ch (short_option optstring no c cs tl))
              [-1; QUESTION; 98; 33; 113; 68; 104]) as S.
  { intros. pose proof (short_option_code no c cs tl) as H.
    simpl In in *. tauto. }
  assert (forall no body tl,
            In (ch (process_long_option longopts no body tl))
              [-1; QUESTION; 98; 33; 113; 68; 104]) as Lg.
  { intros. pose proof (long_option_code no body tl) as H.
    simpl In in *. tauto. }
  unfold next, getopt_long.
  destruct (nextchar d) as [|c cs]; [|apply S].
  destruct (skip_nonoptions (rest d)) as [sk l].
  destruct l as [|elt tl]; [now left|].
  destruct (streq elt "--"); [now left|].
  destruct elt as [|c0 [|c cs]]; try now left.
  destruct (Ascii.eqb c "-"); [apply Lg|apply S].
Qed.

Lemma switch_cli d v s :
  ExampleCli.switch (ch (ExampleCli.next d)) (optarg (ExampleCli.next d)) v s
  = switch (ch (next d)) (optarg (next d)) v s.
Proof.
  rewrite next_cli. unfold recode_ret. cbn [ch optarg].
  pose proof (next_code d) as H. simpl In in H.
  destruct H as [<-|[<-|[<-|[<-|[<-|[<-|[<-|[]]]]]]]]; reflexivity.
Qed.

Lemma option_loop_cli n : forall d v s,
  ExampleCli.option_loop n d v s = option_loop n d v s.
Proof.
  induction n as [|n IH]; intros d v s; [reflexivity|].
  cbn [ExampleCli.option_loop option_loop].
  rewrite switch_cli.
  assert ((ch (ExampleCli.next d) =? -1) = (ch (next d) =? -1)) as ->.
  { rewrite next_cli. unfold recode_ret. cbn [ch].
    pose proof (next_code d) as H. simpl In in H.
    destruct H as [<-|[<-|[<-|[<-|[<-|[<-|[<-|[]]]]]]]]; reflexivity. }
  assert (data (ExampleCli.next d) = data (next d)) as ->
    by (now rewrite next_cli).
  destruct (ch (next d) =? -1); [reflexivity|].
  destruct (switch _ _ v s); try reflexivity. apply IH.
Qed.

(** X1. [parse_args] of [example_cli.c] and [parse_args] of [example.c] end
    the same way, with the same values in the eight variables, on every
    argument vector and whatever the variables held before. *)
Theorem example_cli_parses_as_example
    (progname : string) (args : list string) (v : vars) :
  ExampleCli.parse_args progname args v = parse_args progname args v.
Proof.
  unfold ExampleCli.parse_args, parse_args.
  rewrite option_loop_cli.
  destruct (option_loop _ _ v _) as [[d v' s| |]|]; reflexivity.
Qed.

End ExampleCliFacts.

(** ** More on the option loop of examples/example.c *)

Module ExampleMore.
Import Libc Getopt GetoptFacts Example ExampleFacts.

#[local] Arguments String.eqb : simpl never.
#[local] Arguments String.prefix : simpl never.
#[local] Arguments Ascii.eqb : simpl never.

(** Non-options in front of what is to be read are as good as passed over
    already. *)
Lemma getopt_long_skip_prefix os lo no pre l :
  Forall (fun s => nonoption s = true) pre ->
  getopt_long os lo (mk_data no (pre ++ l) "") =
  getopt_long os lo (mk_data (no ++ pre) l "").
Proof.
  intros H. unfold getopt_long. cbn [nextchar rest nonopts].
  rewrite (skip_nonoptions_prefix pre l H).
  destruct (skip_nonoptions l) as [sk l']. cbn [fst snd].
  now rewrite app_assoc.
Qed.

Lemma option_loop_same_next_fuel d1 d2 v s n m :
  next d1 = next d2 ->
  (measure d1 < n)%nat -> (measure d2 < m)%nat ->
  option_loop n d1 v s = option_loop m d2 v s.
Proof.
  intros E H1 H2.
  rewrite (option_loop_fuel n (S (measure d1))) by lia.
  rewrite (option_loop_fuel m (S (measure d2))) by lia.
  now apply option_loop_same_next.
Qed.

(** X2. [parse_args] comes to an end on every argument vector, and never by
    handing a null [optarg] to [atoi]: whenever [getopt_long] returns the
    code of [--block-size] or [--fav-number] it has set [optarg]. *)
Theorem parse_args_ends_without_fault
    (progname : string) (args : list string) (v : vars) :
  exists o, parse_args progname args v = Some o /\ o <> Fault.
Proof.
  destruct (parse_args_total progname args v) as [o H].
  exists o. split; [exact H|].
  intros ->. exact (parse_args_no_fault progname args v H).
Qed.

(** Reading such a block takes one call, which leaves what follows. *)
Lemma option_block_step x o :
  In o (option_blocks x) ->
  exists c arg,
    c <> -1 /\
    forall no tl,
      next (mk_data no (o ++ tl) "") = mk_ret c arg (mk_data no tl "").
Proof.
  unfold option_blocks. simpl In.
  intros [<-|[<-|[<-|[<-|[<-|[<-|[]]]]]]];
    eexists; eexists;
    (split;
     [|intros no tl;
       replace (mk_data no tl "") with (mk_data (no ++ []) tl "")
         by (now rewrite app_nil_r);
       reflexivity]);
    discriminate.
Qed.

(** In the permuting mode an option (with its value, if it takes one) that
    stands behind non-options is parsed as if it stood in front of them. *)
Lemma option_after_positionals_permuting
    (progname : string) (pre o tl : list string) (x : string) (v : vars) :
  Forall (fun s => nonoption s = true) pre ->
  In o (option_blocks x) ->
  parse_args progname (pre ++ o ++ tl) v =
  parse_args progname (o ++ pre ++ tl) v.
Proof.
  intros Hpre Ho.
  destruct (option_block_step x o Ho) as [c [arg [Hc Hstep]]].
  assert (next (initial (pre ++ o ++ tl)) = mk_ret c arg (mk_data pre tl ""))
    as E1.
  { unfold next, initial.
    rewrite (getopt_long_skip_prefix _ _ [] pre (o ++ tl) Hpre).
    apply Hstep. }
  assert (next (initial (o ++ pre ++ tl)) =
            mk_ret c arg (mk_data [] (pre ++ tl) "")) as E2
    by apply Hstep.
  pose proof (next_decreases (initial (pre ++ o ++ tl))) as M1.
  pose proof (next_decreases (initial (o ++ pre ++ tl))) as M2.
  rewrite E1 in M1. rewrite E2 in M2. cbn [ch data] in M1, M2.
  specialize (M1 Hc). specialize (M2 Hc).
  unfold parse_args. rewrite !option_loop_S, E1, E2. cbn [ch optarg data].
  apply Z.eqb_neq in Hc. rewrite Hc.
  destruct (switch c arg v _) as [v' s'| |]; try reflexivity.
  rewrite (option_loop_same_next_fuel (mk_data pre tl "")
             (mk_data [] (pre ++ tl) "") v' s' _
             (measure (initial (o ++ pre ++ tl)))); [reflexivity| |exact M1|exact M2].
  unfold next. symmetry.
  exact (getopt_long_skip_prefix _ _ [] pre tl Hpre).
Qed.

(** X4. [--] ends the options: behind non-options and [--] every argument
    is positional, also one that starts with a dash, and the options keep
    their defaults. *)
Theorem double_dash_ends_options
    (progname : string) (pre tl : list string) (v : vars) :
  Forall (fun s => nonoption s = true) pre ->
  parse_args progname (pre ++ "--" :: tl) v =
    Some (positionals progname (pre ++ tl)
            (defaults v (mk_issets false false false))).
Proof.
  intros Hpre. unfold parse_args. rewrite option_loop_S.
  assert (next (initial (pre ++ "--" :: tl)) =
            mk_ret (-1) None (mk_data (pre ++ tl) [] "")) as ->.
  { unfold next, initial.
    rewrite (getopt_long_skip_prefix _ _ [] pre ("--" :: tl) Hpre).
    replace (pre ++ tl) with ((([] ++ pre) ++ []) ++ tl)
      by (now rewrite app_nil_r).
    reflexivity. }
  cbn [ch data]. change (-1 =? -1) with true. cbv iota.
  unfold remaining. cbn [nonopts rest]. now rewrite app_nil_r.
Qed.

Lemma double_dash_ends_options_witness :
  parse_args "prog" (["out.txt"] ++ "--" :: ["-q"; "--help"]) uninit =
    Some (Returned
      (mk_vars (Some 12) (Some fave_number__default) None
         (Some (Some "John Smith")) (Some (Some "out.txt"))
         (Some (Some "-q")) (Some ["--help"]) (Some 1))).
Proof.
  rewrite (double_dash_ends_options "prog" ["out.txt"] ["-q"; "--help"] uninit).
  - reflexivity.
  - repeat constructor.
Defined.

(** The value-taking options in the forms that take the next argument. *)
Definition value_flags : list string :=
  ["-b"; "--block-size"; "--fav-number"; "--name"].

(** A value-taking option that is the only element left makes
    [getopt_long] return [?]. *)
Lemma next_value_flag_alone no o :
  In o value_flags ->
  next (mk_data no [o] "") = mk_ret QUESTION None (mk_data no [] "").
Proof.
  intros Ho.
  replace (mk_data no [] "") with (mk_data (no ++ []) [] "")
    by (now rewrite app_nil_r).
  unfold value_flags in Ho. simpl In in Ho.
  destruct Ho as [<-|[<-|[<-|[<-|[]]]]]; reflexivity.
Qed.

(** Behind complete options, such an option ends the loop in its usage
    branch, whatever state the loop is in. *)
Lemma option_loop_missing_value o bs :
  In o value_flags -> Forall option_block bs ->
  forall n no v s,
    (measure (mk_data no (List.concat bs ++ [o]) "") < n)%nat ->
    option_loop n (mk_data no (List.concat bs ++ [o]) "") v s = Some ScanUsage.
Proof.
  intros Ho Hbs. induction Hbs as [|b bs [x Hb] _ IH]; intros n no v s Hn;
    (destruct n as [|n]; [lia|]); rewrite option_loop_S.
  - cbn [List.concat app]. rewrite (next_value_flag_alone no o Ho). reflexivity.
  - destruct (option_block_step x b Hb) as [c [arg [Hc Hstep]]].
    pose proof (next_decreases (mk_data no (List.concat (b :: bs) ++ [o]) ""))
      as M.
    pose proof (switch_next_no_fault
                  (mk_data no (List.concat (b :: bs) ++ [o]) "") v s) as NF.
    cbn [List.concat] in *. rewrite <- app_assoc in *.
    rewrite Hstep in *. cbn [ch optarg data] in *.
    specialize (M Hc). apply Z.eqb_neq in Hc. rewrite Hc.
    destruct (switch c arg v s) as [v' s'| |];
      [apply IH; lia|reflexivity|congruence].
Qed.

(** X5. When the option loop comes to a value-taking option ([-b],
    [--block-size], [--fav-number], [--name]) as the last element, its value
    missing, it ends in its usage branch whatever it has parsed before; and
    every argument vector made of complete options followed by such an
    option ends in the usage and [exit (1)]. *)
Theorem missing_option_value
    (progname : string) (bs : list (list string)) (o : string) (v : vars) :
  Forall option_block bs ->
  In o value_flags ->
  (forall n no v' s,
     option_loop (S n) (mk_data no [o] "") v' s = Some ScanUsage)
  /\ parse_args progname (List.concat bs ++ [o]) v = Some (UsageExit progname 1).
Proof.
  intros Hbs Ho. split.
  - intros n no v' s. rewrite option_loop_S.
    rewrite (next_value_flag_alone no o Ho). reflexivity.
  - unfold parse_args, initial.
    rewrite (option_loop_missing_value o bs Ho Hbs); [reflexivity|lia].
Qed.

Lemma missing_option_value_witness :
  parse_args "prog" (List.concat [["-q"]; ["-b"; "3"]] ++ ["--name"]) uninit =
    Some (UsageExit "prog" 1).
Proof.
  apply (missing_option_value "prog" [["-q"]; ["-b"; "3"]] "--name" uninit).
  - repeat constructor; [exists ""|exists "3"]; simpl; tauto.
  - simpl. tauto.
Defined.

(** X6. The argument after [-b] is its value whatever it looks like, and no
    value is refused: [block_size] is [atoi] of it, 0 if it is no number. *)
Theorem option_value_taken_as_it_is
    (progname : string) (x o : string) (v : vars) :
  nonoption o = true ->
  parse_args progname ["-b"; x; o] v =
    Some (Returned
      (mk_vars (Some (atoi x)) (Some fave_number__default) (quiet v)
         (Some (Some "John Smith")) (Some (Some o))
         (in_file v) (words v) (words__size v))).
Proof.
  intros Ho. unfold parse_args. rewrite option_loop_S.
  change (next (initial ["-b"; x; o]))
    with (mk_ret 98 (Some x) (initial [o])).
  cbn [ch optarg data]. change (98 =? -1) with false. cbv iota.
  change (switch 98 (Some x) v (mk_issets false false false))
    with (Break (set_block_size (atoi x) v) (mk_issets true false false)).
  cbv iota.
  assert (option_loop 1 (initial [o]) (set_block_size (atoi x) v)
            (mk_issets true false false) =
          Some (ScanDone (mk_data [o] [] "") (set_block_size (atoi x) v)
                  (mk_issets true false false))) as L1.
  { rewrite option_loop_S.
    assert (next (initial [o]) = mk_ret (-1) None (mk_data [o] [] "")) as ->
      by (apply next_nonoptions; now constructor).
    reflexivity. }
  rewrite (option_loop_mono 1 _ _ _ _ _ L1)
    by (unfold initial; rewrite measure_eq, weight_cons; lia).
  reflexivity.
Qed.

Lemma option_value_taken_as_it_is_witness :
  parse_args "prog" ["-b"; "--help"; "out.txt"] uninit =
    Some (Returned
      (mk_vars (Some 0) (Some fave_number__default) None
         (Some (Some "John Smith")) (Some (Some "out.txt"))
         None None None)).
Proof.
  apply (option_value_taken_as_it_is "prog" "--help" "out.txt" uninit).
  reflexivity.
Defined.

(** *** The last occurrence of an option counts *)

(** A finished loop, cut at one of its calls of [getopt_long]. *)
Lemma option_loop_split l1 : forall n d v s d' v' s' ret l2,
  option_loop n d v s = Some (ScanDone d' v' s') ->
  getopt_calls n d = l1 ++ ret :: l2 ->
  exists m d1 v1 s1,
    next d1 = ret /\ getopt_calls m (data ret) = l2
    /\ option_loop (S m) d1 v1 s1 = Some (ScanDone d' v' s').
Proof.
  induction l1 as [|r l1 IH]; intros n d v s d' v' s' ret l2 L C;
    (destruct n as [|n]; [discriminate|]);
    rewrite getopt_calls_S in C;
    destruct (ch (next d) =? -1) eqn:E; try discriminate;
    simpl app in C; injection C as C1 C2.
  - exists n, d, v, s. subst ret. auto.
  - rewrite option_loop_S, E in L.
    destruct (switch _ _ v s) as [v2 s2| |]; try discriminate.
    rewrite C1 in *. now apply (IH n (data r) v2 s2).
Qed.

Lemma positionals_options progname l v r :
  positionals progname l v = Returned r ->
  block_size r = block_size v /\ fave_number r = fave_number v
  /\ username r = username v.
Proof.
  rewrite positionals_cases.
  destruct l as [|o [|i [|w l]]]; try discriminate;
    intros H; injection H as <-; auto.
Qed.

Lemma defaults_set v s :
  (block_size__isset s = true -> block_size (defaults v s) = block_size v)
  /\ (fave_number__isset s = true ->
      fave_number (defaults v s) = fave_number v)
  /\ (username__isset s = true -> username (defaults v s) = username v).
Proof.
  unfold defaults.
  destruct (block_size__isset s), (fave_number__isset s),
    (username__isset s); repeat split; try reflexivity; discriminate.
Qed.

(** X7. When a value-taking option is given more than once, the value of its
    last occurrence is the one bound: if a call of [getopt_long] returns the
    code of [--block-size], [--fav-number] or [--name] and no later call
    returns that code, a successful parse leaves [atoi] of that call's
    [optarg] in [block_size] or [fave_number], or that [optarg] itself in
    [username]. *)
Theorem last_occurrence_wins
    (progname : string) (args : list string) (v r : vars)
    (l1 l2 : list getopt_ret) (ret : getopt_ret) :
  parse_args progname args v = Some (Returned r) ->
  getopt_calls (S (measure (initial args))) (initial args)
    = l1 ++ ret :: l2 ->
  ~ In (ch ret) (map ch l2) ->
  In (ch ret) [98; 33; 68] ->
  exists a,
    optarg ret = Some a
    /\ (ch ret = 98 -> block_size r = Some (atoi a))
    /\ (ch ret = 33 -> fave_number r = Some (atoi a))
    /\ (ch ret = 68 -> username r = Some (Some a)).
Proof.
  intros P C N K. unfold parse_args in P.
  destruct (option_loop (S (measure (initial args))) (initial args) v
              (mk_issets false false false))
    as [[d' v' s'| |]|] eqn:L; try discriminate.
  injection P as P.
  destruct (option_loop_split _ _ _ _ _ _ _ _ _ _ L C)
    as [m [d1 [v1 [s1 [E [C2 L2]]]]]].
  pose proof (next_optarg d1) as O. rewrite E in O.
  assert (ch ret = 98 \/ ch ret = 33 \/ ch ret = 68) as K'
    by (simpl In in K; destruct K as [K|[K|[K|[]]]]; auto).
  destruct (optarg ret) as [a|] eqn:A;
    [|exfalso; now apply O].
  exists a. split; [reflexivity|].
  rewrite option_loop_S, E, A in L2.
  apply has_code_not_In in N.
  destruct (positionals_options _ _ _ _ P) as [R1 [R2 R3]].
  destruct (defaults_set v' s') as [D1 [D2 D3]].
  simpl In in K. destruct K as [K|[K|[K|[]]]]; rewrite <- K in *;
    cbn [Z.eqb Pos.eqb switch] in L2;
    apply option_loop_effect in L2; fold (codes m (data ret)) in N;
    unfold codes in L2, N; rewrite C2 in L2;
    destruct L2 as [e1 e2 e3 e4 e5 e6 _ _ _ _ _];
    cbn [block_size__isset fave_number__isset username__isset orb] in e1, e2, e3;
    repeat split; intros Q; try discriminate Q.
  - rewrite R1, (D1 e1), (e4 N). reflexivity.
  - rewrite R2, (D2 e2), (e5 N). reflexivity.
  - rewrite R3, (D3 e3), (e6 N). reflexivity.
Qed.

Lemma last_occurrence_wins_witness :
  exists r,
    parse_args "prog" ["-b"; "1"; "out.txt"; "--block-size=2"; "-q"] uninit
      = Some (Returned r)
    /\ block_size r = Some 2.
Proof.
  eexists. split; [reflexivity|].
  destruct (last_occurrence_wins "prog"
              ["-b"; "1"; "out.txt"; "--block-size=2"; "-q"] uninit _
              [mk_ret 98 (Some "1") (mk_data [] ["out.txt"; "--block-size=2"; "-q"] "")]
              [mk_ret 113 None (mk_data ["out.txt"] [] "")]
              (mk_ret 98 (Some "2") (mk_data ["out.txt"] ["-q"] ""))
              eq_refl eq_refl) as [a [A [B _]]].
  - simpl. intros [H|[]]. discriminate H.
  - simpl. tauto.
  - cbn [optarg] in A. injection A as <-. exact (B eq_refl).
Defined.

Lemma successful_parse_bindings_witness :
  exists r,
    parse_args "prog" ["-q"; "out.txt"; "--name"; "me"] uninit
      = Some (Returned r)
    /\ block_size r = Some 12 /\ quiet r = Some 1.
Proof.
  eexists. split; [reflexivity|].
  destruct (ExampleClaims.successful_parse_bindings "prog"
              ["-q"; "out.txt"; "--name"; "me"] uninit _ eq_refl)
    as [_ [_ [_ [_ [B [_ [_ [Q _]]]]]]]].
  split.
  - apply B. vm_compute. intros [H|[H|[]]]; discriminate H.
  - apply Q. vm_compute. tauto.
Defined.

Lemma words_are_the_tokens_left_over_witness :
  exists r d' v' s',
    parse_args "prog" ["out"; "-q"; "in"; "w1"; "--name=me"; "w2"] uninit
      = Some (Returned r)
    /\ option_loop
         (S (measure (initial ["out"; "-q"; "in"; "w1"; "--name=me"; "w2"])))
         (initial ["out"; "-q"; "in"; "w1"; "--name=me"; "w2"]) uninit
         (mk_issets false false false) = Some (ScanDone d' v' s')
    /\ subseq (remaining d') ["out"; "-q"; "in"; "w1"; "--name=me"; "w2"].
Proof.
  eexists.
  destruct (ExampleClaims.words_are_the_tokens_left_over "prog"
              ["out"; "-q"; "in"; "w1"; "--name=me"; "w2"] uninit _ eq_refl)
    as [d' [v' [s' [L [S _]]]]].
  exists d', v', s'. split; [reflexivity|]. split; [exact L|exact S].
Defined.

End ExampleMore.

(** ** examples/simple.c *)

Module SimpleFacts.
Import Libc Getopt GetoptFacts Simple.
Import Example(has_code).
Import ExampleFacts(has_code_In, has_code_not_In, has_code_cons).

Lemma simple_loop_S n d v s :
  option_loop (S n) d v s =
    if ch (next d) =? -1 then Some (ScanDone (data (next d)) v s)
    else match switch (ch (next d)) (optarg (next d)) v s with
         | Break v' s' => option_loop n (data (next d)) v' s'
         | Usage => Some ScanUsage
         | NullArg => Some ScanFault
         end.
Proof. reflexivity. Qed.

Lemma simple_codes_S n d :
  codes (S n) d =
    if ch (next d) =? -1 then [] else ch (next d) :: codes n (data (next d)).
Proof. reflexivity. Qed.

Lemma simple_next_decreases d :
  ch (next d) <> -1 -> (measure (data (next d)) < measure d)%nat.
Proof. apply getopt_long_decreases. Qed.

Lemma simple_loop_enough n : forall d v s,
  (measure d < n)%nat -> exists x, option_loop n d v s = Some x.
Proof.
  induction n as [|n IH]; intros d v s Hn; [lia|].
  rewrite simple_loop_S.
  destruct (ch (next d) =? -1) eqn:E; [eauto|].
  apply Z.eqb_neq, simple_next_decreases in E.
  destruct (switch _ _ v s); eauto.
  apply IH. lia.
Qed.

Lemma simple_loop_mono n : forall m d v s x,
  option_loop n d v s = Some x -> (n <= m)%nat ->
  option_loop m d v s = Some x.
Proof.
  induction n as [|n IH]; intros m d v s x H Hm; [discriminate|].
  destruct m as [|m]; [lia|].
  rewrite simple_loop_S in *.
  destruct (ch (next d) =? -1); [exact H|].
  destruct (switch _ _ v s); try exact H.
  apply IH; [exact H|lia].
Qed.

Lemma simple_loop_fuel n m d v s :
  (measure d < n)%nat -> (measure d < m)%nat ->
  option_loop n d v s = option_loop m d v s.
Proof.
  intros Hn Hm.
  destruct (simple_loop_enough n d v s Hn) as [x Hx].
  destruct (Nat.le_ge_cases n m) as [L|L].
  - rewrite Hx. symmetry. now apply simple_loop_mono with n.
  - destruct (simple_loop_enough m d v s Hm) as [y Hy].
    rewrite Hy. now apply simple_loop_mono with m.
Qed.

(** What a finished scan has written: the flags follow the codes returned,
    a set flag has a value behind it, and [out_file] and [in_file] are never
    touched. *)
Record scan_effect (l : list Z) (v : vars) (s : issets) (v' : vars)
    (s' : issets) : Prop := mk_scan_effect {
  eff_block_size__isset :
    block_size__isset s' = (block_size__isset s || has_code 98 l)%bool;
  eff_username__isset :
    username__isset s' = (username__isset s || has_code 110 l)%bool;
  eff_block_size :
    has_code 98 l = true -> exists b, block_size v' = Some b;
  eff_block_size_kept :
    has_code 98 l = false -> block_size v' = block_size v;
  eff_username :
    has_code 110 l = false -> username v' = username v;
  eff_max_warp :
    max_warp v' = if has_code 113 l then Some 1 else max_warp v;
  eff_out_file : out_file v' = out_file v;
  eff_in_file : in_file v' = in_file v
}.

Lemma simple_effect_nil v s : scan_effect [] v s v s.
Proof.
  constructor; simpl; rewrite ?orb_false_r; try reflexivity; discriminate.
Qed.

Lemma simple_switch_effect c arg v s v' s' :
  switch c arg v s = Break v' s' -> scan_effect [c] v s v' s'.
Proof.
  unfold switch, has_code.
  destruct (c =? 98) eqn:E1.
  { apply Z.eqb_eq in E1. subst c. destruct arg; [|discriminate].
    intros H. injection H as <- <-.
    constructor; simpl; rewrite ?orb_false_r, ?orb_true_r;
      try reflexivity; try discriminate; eauto. }
  destruct (c =? 113) eqn:E2.
  { apply Z.eqb_eq in E2. subst c. intros H. injection H as <- <-.
    constructor; simpl; rewrite ?orb_false_r, ?orb_true_r;
      try reflexivity; try discriminate. }
  destruct (c =? 110) eqn:E3.
  { apply Z.eqb_eq in E3. subst c. intros H. injection H as <- <-.
    constructor; simpl; rewrite ?orb_false_r, ?orb_true_r;
      try reflexivity; try discriminate. }
  destruct (c =? 0); [|discriminate].
  intros H. injection H as <- <-.
  constructor; simpl; rewrite ?E1, ?E2, ?E3, ?orb_false_r;
    try reflexivity; discriminate.
Qed.

Lemma simple_effect_cons c l v s v1 s1 v2 s2 :
  scan_effect [c] v s v1 s1 -> scan_effect l v1 s1 v2 s2 ->
  scan_effect (c :: l) v s v2 s2.
Proof.
  intros [a1 a2 a3 a4 a5 a6 a7 a8] [b1 b2 b3 b4 b5 b6 b7 b8].
  constructor; rewrite ?(has_code_cons _ c l);
    try (rewrite orb_assoc; congruence); try congruence.
  - intros H. destruct (has_code 98 l) eqn:E; [now apply b3|].
    rewrite orb_false_r in H. rewrite (b4 eq_refl). now apply a3.
  - intros H. apply orb_false_elim in H as [H1 H2]. rewrite b4, a4; auto.
  - intros H. apply orb_false_elim in H as [H1 H2]. rewrite b5, a5; auto.
  - rewrite b6, a6.
    destruct (has_code 113 [c]), (has_code 113 l); reflexivity.
Qed.

Lemma simple_loop_effect n : forall d v s d' v' s',
  option_loop n d v s = Some (ScanDone d' v' s') ->
  scan_effect (codes n d) v s v' s'.
Proof.
  induction n as [|n IH]; intros d v s d' v' s' L; [discriminate|].
  rewrite simple_codes_S. rewrite simple_loop_S in L.
  destruct (ch (next d) =? -1).
  - injection L as _ <- <-. apply simple_effect_nil.
  - destruct (switch _ _ v s) as [v1 s1| |] eqn:SW; try discriminate.
    eapply simple_effect_cons; [eapply simple_switch_effect; exact SW|].
    eapply IH. exact L.
Qed.

(** Without the code of [--block-size] the scan cannot fault, and leaves
    [block_size__isset] as it was. *)
Lemma option_loop_without_block_size n : forall d v s,
  (measure d < n)%nat -> ~ In 98 (codes n d) ->
  option_loop n d v s = Some ScanUsage
  \/ exists d' v' s',
       option_loop n d v s = Some (ScanDone d' v' s')
       /\ block_size__isset s' = block_size__isset s.
Proof.
  induction n as [|n IH]; intros d v s Hn N; [lia|].
  rewrite simple_codes_S in N. rewrite simple_loop_S.
  destruct (ch (next d) =? -1) eqn:E; [right; eauto|].
  apply Z.eqb_neq, simple_next_decreases in E.
  simpl In in N. unfold switch.
  destruct (ch (next d) =? 98) eqn:E1;
    [apply Z.eqb_eq in E1; tauto|].
  destruct (ch (next d) =? 113);
    [apply (IH _ _ s); [lia|tauto]|].
  destruct (ch (next d) =? 110).
  { destruct (IH (data (next d)) (set_username (optarg (next d)) v)
                (mk_issets (block_size__isset s) true))
      as [H|[d' [v' [s' [H1 H2]]]]]; [lia|tauto|now left|].
    right. exists d', v', s'. split; [exact H1|exact H2]. }
  destruct (ch (next d) =? 0); [|now left].
  apply (IH _ _ s); [lia|tauto].
Qed.

(** X10. [--block-size] is required: when [getopt_long] never returns its
    code the parse ends in the usage and [exit (1)], whatever else is
    given. *)
Theorem block_size_is_required
    (progname : string) (args : list string) (v : vars) :
  ~ In 98 (option_codes args) ->
  parse_args progname args v = Some (UsageExit progname 1).
Proof.
  intros N. unfold parse_args.
  destruct (option_loop_without_block_size (S (measure (initial args)))
              (initial args) v (mk_issets false false))
    as [H|[d' [v' [s' [H1 H2]]]]]; [lia|exact N|now rewrite H|].
  rewrite H1. unfold after_options. rewrite H2. reflexivity.
Qed.

Lemma block_size_is_required_witness :
  parse_args "prog" ["-q"; "--cores"; "4"; "file"] uninit =
    Some (UsageExit "prog" 1).
Proof.
  apply (block_size_is_required "prog" ["-q"; "--cores"; "4"; "file"] uninit).
  vm_compute. intros [H|[H|[]]]; discriminate H.
Defined.

(** X11. What a successful parse has done: [getopt_long] returned the code
    of [--block-size] and [block_size] holds a value; [username] holds
    "John Smith" unless the code of [--cores] was returned; [max_warp] is 1
    after [-q] and otherwise what it was; [out_file] and [in_file] are what
    they were before the call, whatever positional arguments there are. *)
Theorem simple_parse_bindings
    (progname : string) (args : list string) (v r : vars) :
  parse_args progname args v = Some (Returned r) ->
  In 98 (option_codes args)
  /\ (exists b, block_size r = Some b)
  /\ (~ In 110 (option_codes args) ->
      username r = Some (Some "John Smith"))
  /\ (In 113 (option_codes args) -> max_warp r = Some 1)
  /\ (~ In 113 (option_codes args) -> max_warp r = max_warp v)
  /\ out_file r = out_file v
  /\ in_file r = in_file v.
Proof.
  unfold parse_args, option_codes. intros P.
  destruct (option_loop (S (measure (initial args))) (initial args) v
              (mk_issets false false))
    as [[d' v' s'| |]|] eqn:L; try discriminate.
  injection P as P.
  destruct (simple_loop_effect _ _ _ _ _ _ _ L)
    as [e1 e2 e3 e4 e5 e6 e7 e8].
  set (l := codes (S (measure (initial args))) (initial args)) in *.
  simpl in e1, e2. unfold after_options in P.
  rewrite e1, e2 in P.
  destruct (has_code 98 l) eqn:B; [|discriminate].
  split; [now apply has_code_In|].
  assert (max_warp r = max_warp v' /\ block_size r = block_size v'
          /\ out_file r = out_file v' /\ in_file r = in_file v'
          /\ (has_code 110 l = false ->
              username r = Some (Some "John Smith"))) as [R1 [R2 [R3 [R4 R5]]]].
  { destruct (has_code 110 l); simpl in P; injection P as <-;
      repeat split; try reflexivity; discriminate. }
  rewrite R1, R2, R3, R4, e6, e7, e8.
  split; [now apply e3|].
  split; [intros N; apply R5; now apply has_code_not_In|].
  split; [intros N; apply has_code_In in N; now rewrite N|].
  split; [intros N; apply has_code_not_In in N; now rewrite N|].
  split; reflexivity.
Qed.

Lemma simple_parse_bindings_witness :
  exists r,
    parse_args "prog" ["out"; "-b"; "8"; "in"] uninit = Some (Returned r)
    /\ block_size r = Some 8
    /\ username r = Some (Some "John Smith")
    /\ out_file r = None /\ in_file r = None /\ max_warp r = None.
Proof.
  eexists. split; [reflexivity|].
  destruct (simple_parse_bindings "prog" ["out"; "-b"; "8"; "in"] uninit _
              eq_refl) as [_ [_ [U [_ [W [O I]]]]]].
  split; [reflexivity|].
  split; [apply U; vm_compute; intros [H|[]]; discriminate H|].
  split; [exact O|]. split; [exact I|].
  apply W. vm_compute. intros [H|[]]. discriminate H.
Defined.

(** *** Positional arguments are passed over *)

(** Two states of the library with the same elements left to read. *)
Definition same_input (d1 d2 : getopt_data) : Prop :=
  rest d1 = rest d2 /\ nextchar d1 = nextchar d2.

Lemma short_option_same_input os no no' c cs tl :
  ch (short_option os no c cs tl) = ch (short_option os no' c cs tl)
  /\ optarg (short_option os no c cs tl) = optarg (short_option os no' c cs tl)
  /\ same_input (data (short_option os no c cs tl))
        (data (short_option os no' c cs tl)).
Proof.
  unfold short_option, same_input.
  destruct (strchr os c) as [temp|]; [|repeat split].
  destruct (Ascii.eqb c ":" || Ascii.eqb c ";")%bool; [repeat split|].
  destruct (Ascii.eqb (char_at temp 1) ":"); [|repeat split].
  destruct (Ascii.eqb (char_at temp 2) ":");
    destruct cs; try destruct tl; repeat split.
Qed.

Lemma process_long_option_same_input lo no no' body tl :
  ch (process_long_option lo no body tl)
    = ch (process_long_option lo no' body tl)
  /\ optarg (process_long_option lo no body tl)
      = optarg (process_long_option lo no' body tl)
  /\ same_input (data (process_long_option lo no body tl))
        (data (process_long_option lo no' body tl)).
Proof.
  unfold process_long_option, same_input.
  destruct (split_eq body) as [nm eqv].
  destruct (lookup lo nm) as [p| |]; [|repeat split|repeat split].
  destruct eqv as [a|]; destruct (has_arg p); try destruct tl; repeat split.
Qed.

(** What a call returns, and what it leaves to read, does not depend on the
    non-options passed over before. *)
Lemma getopt_long_same_input os lo d1 d2 :
  same_input d1 d2 ->
  ch (getopt_long os lo d1) = ch (getopt_long os lo d2)
  /\ optarg (getopt_long os lo d1) = optarg (getopt_long os lo d2)
  /\ same_input (data (getopt_long os lo d1)) (data (getopt_long os lo d2)).
Proof.
  destruct d1 as [no1 l nc], d2 as [no2 l2 nc2].
  unfold same_input. cbn [rest nextchar]. intros [<- <-].
  unfold getopt_long. cbn [nextchar rest nonopts].
  destruct nc as [|c cs]; [|apply short_option_same_input].
  destruct (skip_nonoptions l) as [sk l'].
  destruct l' as [|elt tl]; [repeat split|].
  destruct (streq elt "--"); [repeat split|].
  destruct elt as [|c0 [|c cs]]; [repeat split|repeat split|].
  destruct (Ascii.eqb c "-");
    [apply process_long_option_same_input|apply short_option_same_input].
Qed.

(** The outcome a scan leads to. *)
Definition finish (progname : string) (x : option scanned) : option outcome :=
  match x with
  | None => None
  | Some ScanUsage => Some (UsageExit progname 1)
  | Some ScanFault => Some Fault
  | Some (ScanDone d v s) => Some (after_options progname (remaining d) v s)
  end.

Lemma finish_same_input progname n : forall d1 d2 v s,
  same_input d1 d2 ->
  finish progname (option_loop n d1 v s)
  = finish progname (option_loop n d2 v s).
Proof.
  induction n as [|n IH]; intros d1 d2 v s H; [reflexivity|].
  rewrite !simple_loop_S.
  destruct (getopt_long_same_input optstring longopts d1 d2 H)
    as [E1 [E2 E3]].
  fold (next d1) in E1, E2, E3. fold (next d2) in E1, E2, E3.
  rewrite E1, E2.
  destruct (ch (next d2) =? -1); [reflexivity|].
  destruct (switch _ _ v s); try reflexivity. now apply IH.
Qed.

Lemma simple_loop_same_next d1 d2 v s :
  next d1 = next d2 ->
  option_loop (S (measure d1)) d1 v s = option_loop (S (measure d2)) d2 v s.
Proof.
  intros E. rewrite !simple_loop_S, E.
  destruct (ch (next d2) =? -1) eqn:C; [reflexivity|].
  apply Z.eqb_neq in C.
  assert (measure (data (next d2)) < measure d1)%nat
    as M1 by (rewrite <- E; apply simple_next_decreases; now rewrite E).
  pose proof (simple_next_decreases _ C) as M2.
  destruct (switch _ _ v s) as [v' s'| |]; try reflexivity.
  now rewrite (simple_loop_fuel _ (measure d2) _ v' s' M1 M2).
Qed.

(** In the permuting mode non-options in front of the arguments change
    neither the outcome nor any variable. *)
Lemma positionals_are_ignored_permuting
    (progname : string) (pre l : list string) (v : vars) :
  Forall (fun s => nonoption s = true) pre ->
  parse_args progname (pre ++ l) v = parse_args progname l v.
Proof.
  intros Hpre.
  change (finish progname
            (option_loop (S (measure (initial (pre ++ l))))
               (initial (pre ++ l)) v (mk_issets false false)) =
          finish progname
            (option_loop (S (measure (initial l))) (initial l) v
               (mk_issets false false))).
  rewrite (simple_loop_same_next (initial (pre ++ l)) (mk_data pre l "")).
  - apply finish_same_input. split; reflexivity.
  - unfold next, initial.
    rewrite (ExampleMore.getopt_long_skip_prefix _ _ [] pre l Hpre).
    reflexivity.
Qed.

End SimpleFacts.

(** ** More on populate_args of examples/simple_gen.c *)

Module SimpleGenMore.
Import Libc SimpleGen SimpleGenClaims.

Local Open Scope nat_scope.

#[local] Arguments String.eqb : simpl never.

Lemma for_loop_reads_bound n : forall i argv a log,
  1 <= i -> i + n = List.length argv ->
  Forall (fun j => 1 <= j <= List.length argv) log ->
  Forall (fun j => 1 <= j <= List.length argv)
    (reads (for_loop n i argv a log)).
Proof.
  induction n as [|n IH]; intros i argv a log Hi Hn Hlog; cbn [for_loop].
  - cbn [reads]. now apply Forall_rev.
  - assert (Forall (fun j => 1 <= j <= List.length argv) (i :: log)) as H1
      by (constructor; [lia|exact Hlog]).
    assert (Forall (fun j => 1 <= j <= List.length argv) (S i :: i :: log))
      as H2 by (constructor; [lia|exact H1]).
    destruct (argv_at argv i) as [s|]; [|cbn [reads]; now apply Forall_rev].
    destruct (streq s "--int_arg").
    { destruct (argv_at argv (S i));
        [apply IH; [lia|lia|exact H2]|cbn [reads]; now apply Forall_rev]. }
    destruct (streq s "--char_arg").
    { destruct (argv_at argv (S i));
        [apply IH; [lia|lia|exact H2]|cbn [reads]; now apply Forall_rev]. }
    apply IH; [lia|lia|exact H1].
Qed.

(** X13. [populate_args] reads [argv] only at the indices 1 to [argc]: never
    the program name, and nothing behind the null pointer that ends the
    vector. *)
Theorem reads_within_argv (a : args) (progname : string) (l : list string) :
  Forall (fun j => 1 <= j <= argc (progname :: l))
    (reads (populate_args a (progname :: l))).
Proof.
  unfold populate_args, argc.
  apply for_loop_reads_bound; [lia|cbn [List.length]; lia|constructor].
Qed.

(** When the last argument is not an option name the loop runs to its end
    and the last thing it stores is that argument, in [np_arg]. *)
Lemma for_loop_last_positional n : forall i argv a log x,
  i + n = List.length argv -> 0 < n ->
  argv_at argv (List.length argv - 1) = Some x ->
  option_name x = false ->
  exists a',
    res (for_loop n i argv a log) = Finished a'
    /\ np_arg a' = Some (atoi x).
Proof.
  induction n as [|n IH]; intros i argv a log x Hi Hn Hlast Hx; [lia|].
  cbn [for_loop].
  destruct (Nat.eq_dec n 0) as [->|Hn0].
  - replace (List.length argv - 1) with i in Hlast by lia.
    rewrite Hlast. unfold option_name in Hx.
    apply orb_false_elim in Hx as [-> ->].
    cbn [for_loop]. eexists. cbn [res np_arg]. split; reflexivity.
  - destruct (argv_at_some argv i) as [s ->]; [lia|].
    destruct (argv_at_some argv (S i)) as [s' ->]; [lia|].
    destruct (streq s "--int_arg"); [|destruct (streq s "--char_arg")];
      apply IH; try assumption; lia.
Qed.

(** X14. How a run ends is decided by the last argument alone: if it is
    [--int_arg] or [--char_arg] the run dereferences the null pointer
    [argv[argc]]; if it is anything else the run returns, with [atoi] of
    that argument in [np_arg]. *)
Theorem last_argument_decides
    (a : args) (progname : string) (pre : list string) (x : string) :
  if option_name x
  then res (populate_args a (progname :: pre ++ [x]))
       = NullDeref (argc (progname :: pre ++ [x]))
  else exists a',
         res (populate_args a (progname :: pre ++ [x])) = Finished a'
         /\ np_arg a' = Some (atoi x).
Proof.
  assert (argv_at (progname :: pre ++ [x])
            (List.length (progname :: pre ++ [x]) - 1) = Some x) as Hlast.
  { cbn [List.length]. rewrite length_app. cbn [List.length].
    replace (S (List.length pre + 1) - 1) with (S (List.length pre + 0))
      by lia.
    now rewrite argv_at_cons, argv_at_app. }
  assert (1 + (argc (progname :: pre ++ [x]) - 1)
          = List.length (progname :: pre ++ [x])) as Hn
    by (unfold argc; cbn [List.length]; lia).
  assert (0 < argc (progname :: pre ++ [x]) - 1) as Hpos
    by (unfold argc; cbn [List.length]; rewrite length_app;
        cbn [List.length]; lia).
  destruct (option_name x) eqn:E; unfold populate_args.
  - now apply (for_loop_option_last _ _ _ _ _ x Hn Hpos Hlast).
  - now apply for_loop_last_positional.
Qed.

Lemma for_loop_keeps n : forall i argv a log a',
  res (for_loop n i argv a log) = Finished a' ->
  ((forall j, i <= j -> argv_at argv j <> Some "--int_arg"%string) ->
   int_arg a' = int_arg a)
  /\ ((forall j, i <= j -> argv_at argv j <> Some "--char_arg"%string) ->
      char_arg a' = char_arg a).
Proof.
  induction n as [|n IH]; intros i argv a log a' R; cbn [for_loop] in R.
  - injection R as <-. split; reflexivity.
  - destruct (argv_at argv i) as [s|] eqn:E; [|discriminate].
    destruct (streq s "--int_arg") eqn:E1.
    { apply String.eqb_eq in E1. subst s.
      destruct (argv_at argv (S i)); [|discriminate].
      destruct (IH _ _ _ _ _ R) as [_ H2].
      split; [intros H; exfalso; exact (H i (le_n i) E)|].
      intros H. rewrite H2; [reflexivity|]. intros j Hj. apply H. lia. }
    destruct (streq s "--char_arg") eqn:E2.
    { apply String.eqb_eq in E2. subst s.
      destruct (argv_at argv (S i)); [|discriminate].
      destruct (IH _ _ _ _ _ R) as [H1 _].
      split; [|intros H; exfalso; exact (H i (le_n i) E)].
      intros H. rewrite H1; [reflexivity|]. intros j Hj. apply H. lia. }
    destruct (IH _ _ _ _ _ R) as [H1 H2].
    split; intros H; [rewrite H1|rewrite H2]; try reflexivity;
      intros j Hj; apply H; lia.
Qed.

(** X15. An option that is not among the arguments leaves its variable as
    it was (in [main]: uninitialised): without [--int_arg] nothing is stored
    in [int_arg], without [--char_arg] nothing in [char_arg]. *)
Theorem absent_option_stores_nothing
    (a a' : args) (progname : string) (l : list string) :
  res (populate_args a (progname :: l)) = Finished a' ->
  (~ In "--int_arg"%string l -> int_arg a' = int_arg a)
  /\ (~ In "--char_arg"%string l -> char_arg a' = char_arg a).
Proof.
  intros R. unfold populate_args in R.
  destruct (for_loop_keeps _ _ _ _ _ _ R) as [H1 H2].
  assert (forall s, ~ In s l ->
            forall j, 1 <= j -> argv_at (progname :: l) j <> Some s) as K.
  { intros s N j Hj E. destruct j as [|j]; [lia|].
    rewrite argv_at_cons in E. unfold argv_at in E.
    apply nth_error_In in E. contradiction. }
  split; intros N; [apply H1|apply H2]; now apply K.
Qed.

Lemma absent_option_stores_nothing_witness :
  exists a',
    res (populate_args uninit ["a.out"; "--char_arg"; "x"; "7"]%string)
      = Finished a'
    /\ int_arg a' = None /\ char_arg a' = Some "x"%char.
Proof.
  eexists. split; [reflexivity|].
  destruct (absent_option_stores_nothing uninit _ "a.out"
              ["--char_arg"; "x"; "7"]%string eq_refl) as [H _].
  split; [|reflexivity].
  apply H. simpl. intros [E|[E|[E|[]]]]; discriminate E.
Defined.

(** The loop from [i] comes to any later index [k] below [argc - 1] without
    having stopped. *)
Lemma for_loop_reaches k : forall n i argv a log,
  i + n = List.length argv -> i <= k -> S k < List.length argv ->
  exists a1 log1,
    for_loop n i argv a log = for_loop (n - (k - i)) k argv a1 log1.
Proof.
  intros n. induction n as [|n IH]; intros i argv a log Hn Hik Hk; [lia|].
  destruct (Nat.eq_dec i k) as [->|Hne].
  - exists a, log. f_equal. lia.
  - cbn [for_loop].
    destruct (argv_at_some argv i) as [s ->]; [lia|].
    destruct (argv_at_some argv (S i)) as [s' ->]; [lia|].
    replace (S n - (k - i)) with (n - (k - S i)) by lia.
    destruct (streq s "--int_arg"); [|destruct (streq s "--char_arg")];
      apply IH; lia.
Qed.

(** X16. [int_arg] ends as [atoi] of the argument behind the last
    [--int_arg]: if [--int_arg] is followed by [x] and does not occur again
    from [x] on, a run that returns leaves [atoi x] in [int_arg]. *)
Theorem int_arg_is_last_value
    (a a' : args) (progname : string) (pre post : list string) (x : string) :
  ~ In "--int_arg"%string (x :: post) ->
  res (populate_args a
         (progname :: pre ++ "--int_arg"%string :: x :: post)) = Finished a' ->
  int_arg a' = Some (atoi x).
Proof.
  intros N R. unfold populate_args in R.
  set (argv := progname :: pre ++ "--int_arg"%string :: x :: post) in *.
  assert (List.length argv = S (List.length pre + S (S (List.length post))))
    as Hlen by (unfold argv; cbn [List.length]; rewrite length_app;
                reflexivity).
  assert (argv_at argv (S (List.length pre + 0))
          = Some "--int_arg"%string) as E0
    by (unfold argv; now rewrite argv_at_cons, argv_at_app).
  assert (argv_at argv (S (List.length pre + 1)) = Some x) as E1
    by (unfold argv; now rewrite argv_at_cons, argv_at_app).
  assert (forall j, S (List.length pre + 1) <= j ->
            argv_at argv j <> Some "--int_arg"%string) as K.
  { intros j Hj E. unfold argv in E.
    replace j with (S (List.length pre + (j - S (List.length pre)))) in E
      by lia.
    rewrite argv_at_cons, argv_at_app in E.
    destruct (j - S (List.length pre)) as [|m] eqn:M; [lia|].
    rewrite argv_at_cons in E. unfold argv_at in E.
    apply nth_error_In in E. contradiction. }
  destruct (for_loop_reaches (S (List.length pre + 0)) (argc argv - 1) 1
              argv a []) as [a1 [log1 Q]];
    [unfold argc; lia|lia|lia|].
  rewrite Q in R. clear Q.
  replace (argc argv - 1 - (S (List.length pre + 0) - 1))
    with (S (S (List.length post))) in R by (unfold argc; lia).
  remember (S (List.length post)) as m eqn:Hm.
  cbn [for_loop] in R. rewrite E0 in R.
  change (streq "--int_arg" "--int_arg") with true in R. cbv iota in R.
  replace (S (S (List.length pre + 0))) with (S (List.length pre + 1)) in R
    by lia.
  rewrite E1 in R.
  destruct (for_loop_keeps _ _ _ _ _ _ R) as [H _].
  rewrite H; [reflexivity|exact K].
Qed.

Lemma int_arg_is_last_value_witness :
  exists a',
    res (populate_args uninit
           ("a.out" :: ["--int_arg"; "1"] ++ "--int_arg" :: "2" :: ["5"])%string)
      = Finished a'
    /\ int_arg a' = Some 2%Z.
Proof.
  eexists. split; [reflexivity|].
  apply (int_arg_is_last_value uninit _ "a.out" ["--int_arg"; "1"]%string
           ["5"]%string "2").
  - simpl. intros [E|[E|[]]]; discriminate E.
  - reflexivity.
Defined.

End SimpleGenMore.

(** ** Options and positional arguments, with and without POSIXLY_CORRECT *)

Module Environment.
Import Libc Getopt GetoptFacts.

(** Without [POSIXLY_CORRECT] the library is in the permuting mode of
    [getopt_long]. *)
Lemma getopt_long_env_unset os lo d :
  getopt_long_env false os lo d = getopt_long os lo d.
Proof.
  unfold getopt_long_env, getopt_long.
  destruct (nextchar d); [|reflexivity].
  pose proof (skip_nonoptions_head (rest d)) as H.
  destruct (skip_nonoptions (rest d)) as [sk l]. cbn [snd] in H.
  destruct l as [|elt tl]; [reflexivity|].
  destruct (streq elt "--"); [reflexivity|].
  now rewrite (H elt tl eq_refl).
Qed.

(** With [POSIXLY_CORRECT] a non-option in first place ends the scan at
    once and stays first of what is left. *)
Lemma getopt_long_env_set_nonoption os lo p l :
  nonoption p = true ->
  getopt_long_env true os lo (initial (p :: l)) =
    mk_ret (-1) None (mk_data [] (p :: l) "").
Proof.
  intros Hp. unfold getopt_long_env, initial. cbn [nextchar rest nonopts].
  destruct (streq p "--") eqn:E.
  - apply String.eqb_eq in E. subst p. discriminate Hp.
  - now rewrite Hp.
Qed.

Lemma example_loop_env_unset n : forall d v s,
  Example.option_loop_env false n d v s = Example.option_loop n d v s.
Proof.
  induction n as [|n IH]; intros d v s; [reflexivity|].
  cbn [Example.option_loop_env Example.option_loop].
  unfold Example.next_env, Example.next.
  rewrite getopt_long_env_unset.
  destruct (ch _ =? -1); [reflexivity|].
  destruct (Example.switch _ _ v s); try reflexivity. apply IH.
Qed.

Lemma example_parse_args_env_unset progname args v :
  Example.parse_args_env false progname args v
  = Example.parse_args progname args v.
Proof.
  unfold Example.parse_args_env, Example.parse_args.
  now rewrite example_loop_env_unset.
Qed.

Lemma simple_loop_env_unset n : forall d v s,
  Simple.option_loop_env false n d v s = Simple.option_loop n d v s.
Proof.
  induction n as [|n IH]; intros d v s; [reflexivity|].
  cbn [Simple.option_loop_env Simple.option_loop].
  unfold Simple.next_env, Simple.next.
  rewrite getopt_long_env_unset.
  destruct (ch _ =? -1); [reflexivity|].
  destruct (Simple.switch _ _ v s); try reflexivity. apply IH.
Qed.

Lemma simple_parse_args_env_unset progname args v :
  Simple.parse_args_env false progname args v
  = Simple.parse_args progname args v.
Proof.
  unfold Simple.parse_args_env, Simple.parse_args.
  now rewrite simple_loop_env_unset.
Qed.

(** X3. Whether options may follow positional arguments in [example.c] is
    decided by the environment.  Without [POSIXLY_CORRECT] an option (with
    its value, if it takes one) behind non-options is parsed as if it stood
    in front of them.  With [POSIXLY_CORRECT] the first non-option ends the
    options: the option behind it is not read, the value options get their
    defaults and all the arguments are distributed as positional ones. *)
Theorem options_behind_positionals
    (progname : string) (pre o tl : list string) (x : string)
    (v : Example.vars) :
  Forall (fun s => nonoption s = true) pre ->
  In o (Example.option_blocks x) ->
  Example.parse_args_env false progname (pre ++ o ++ tl) v
    = Example.parse_args_env false progname (o ++ pre ++ tl) v
  /\ (pre <> [] ->
      Example.parse_args_env true progname (pre ++ o ++ tl) v
        = Some (Example.positionals progname (pre ++ o ++ tl)
                  (Example.defaults v (Example.mk_issets false false false)))).
Proof.
  intros Hpre Ho. split.
  - rewrite !example_parse_args_env_unset.
    now apply ExampleMore.option_after_positionals_permuting with x.
  - intros Hne. destruct pre as [|p pre]; [contradiction|].
    inversion Hpre as [|? ? Hp _]; subst.
    unfold Example.parse_args_env.
    cbn [Example.option_loop_env]. unfold Example.next_env.
    cbn [app]. rewrite (getopt_long_env_set_nonoption _ _ p _ Hp).
    reflexivity.
Qed.

Lemma options_behind_positionals_witness :
  Example.parse_args_env false "prog"
    (["out.txt"; "in.txt"] ++ ["-b"; "20"] ++ ["foo"]) Example.uninit
  = Example.parse_args_env false "prog"
      (["-b"; "20"] ++ ["out.txt"; "in.txt"] ++ ["foo"]) Example.uninit
  /\ Example.parse_args_env true "prog"
       (["out.txt"; "in.txt"] ++ ["-b"; "20"] ++ ["foo"]) Example.uninit
     = Some (Example.Returned
         (Example.mk_vars (Some 12) (Some Example.fave_number__default) None
            (Some (Some "John Smith")) (Some (Some "out.txt"))
            (Some (Some "in.txt")) (Some ["-b"; "20"; "foo"]) (Some 3))).
Proof.
  destruct (options_behind_positionals "prog" ["out.txt"; "in.txt"]
              ["-b"; "20"] ["foo"] "20" Example.uninit) as [H1 H2].
  - repeat constructor.
  - simpl. tauto.
  - split; [exact H1|]. rewrite H2; [reflexivity|discriminate].
Defined.

(** X12. What [simple.c] makes of positional arguments in front is decided
    by the environment.  Without [POSIXLY_CORRECT] they count for nothing:
    non-options in front change neither the outcome nor any variable.  With
    [POSIXLY_CORRECT] the first of them ends the options, so that
    [--block-size] has not been seen and the parse ends in the usage and
    [exit (1)]. *)
Theorem leading_positionals
    (progname : string) (pre l : list string) (v : Simple.vars) :
  Forall (fun s => nonoption s = true) pre ->
  Simple.parse_args_env false progname (pre ++ l) v
    = Simple.parse_args_env false progname l v
  /\ (pre <> [] ->
      Simple.parse_args_env true progname (pre ++ l) v
        = Some (Simple.UsageExit progname 1)).
Proof.
  intros Hpre. split.
  - rewrite !simple_parse_args_env_unset.
    now apply SimpleFacts.positionals_are_ignored_permuting.
  - intros Hne. destruct pre as [|p pre]; [contradiction|].
    inversion Hpre as [|? ? Hp _]; subst.
    unfold Simple.parse_args_env.
    cbn [Simple.option_loop_env]. unfold Simple.next_env.
    cbn [app]. rewrite (getopt_long_env_set_nonoption _ _ p _ Hp).
    reflexivity.
Qed.

Lemma leading_positionals_witness :
  Simple.parse_args_env false "prog" (["out"; "in"] ++ ["-b"; "8"])
    Simple.uninit
  = Simple.parse_args_env false "prog" ["-b"; "8"] Simple.uninit
  /\ Simple.parse_args_env true "prog" (["out"; "in"] ++ ["-b"; "8"])
       Simple.uninit
     = Some (Simple.UsageExit "prog" 1)
  /\ Simple.parse_args_env true "prog" ["-b"; "8"] Simple.uninit
     = Some (Simple.Returned
         (Simple.mk_vars None None (Some 8) None (Some (Some "John Smith")))).
Proof.
  destruct (leading_positionals "prog" ["out"; "in"] ["-b"; "8"]
              Simple.uninit) as [H1 H2].
  - repeat constructor.
  - split; [exact H1|]. split; [apply H2; discriminate|reflexivity].
Defined.

End Environment.
